(** * mathExpressionParser: a store-passing embedding of [expressionParser.py]

    The Python module tokenizes a formula with one regular expression,
    links the tokens into a tree by mutating the token objects, and
    evaluates the tree against a keyword environment.  Node objects are
    mutable and shared, so they live in an explicit store here and every
    function of the source that creates or updates a node threads that
    store.  Python values are modelled with binary64 floats (the pure
    [SpecFloat] operations), unbounded integers, booleans, [None] and
    strings as lists of code points; what the source delegates to
    [datetime], [dateutil] and [math] is taken from a [Host] record. *)

From Stdlib Require Import ZArith NArith List Bool Lia String Ascii.
From Stdlib Require Import Floats.SpecFloat.
From stdpp Require Import base option list gmap.

Local Open Scope Z_scope.

(** ** Text *)

(** A Python [str] is a sequence of code points. *)
Definition text := list N.

Definition txt (s : string) : text :=
  List.map N_of_ascii (list_ascii_of_string s).

Definition ch (c : ascii) : N := N_of_ascii c.

Fixpoint text_eqb (a b : text) : bool :=
  match a, b with
  | [], [] => true
  | x :: a', y :: b' => N.eqb x y && text_eqb a' b'
  | _, _ => false
  end.

(** Lexicographic order on code points, as [str.__lt__] has it. *)
Fixpoint text_compare (a b : text) : comparison :=
  match a, b with
  | [], [] => Eq
  | [], _ :: _ => Lt
  | _ :: _, [] => Gt
  | x :: a', y :: b' =>
      match N.compare x y with
      | Eq => text_compare a' b'
      | c => c
      end
  end.

(** ** Exceptions and outcomes *)

Inductive exn :=
| Exception (msg : text)     (* [raise Exception(msg)] in the source *)
| TypeError
| ValueError
| ZeroDivisionError
| OverflowError
| IndexError
| AttributeError
| HostError (code : N).      (* raised inside a library call *)

(** [Diverge] is fuel exhaustion: the model's recursion bound was hit. *)
Inductive outcome (A : Type) :=
| Ok (a : A)
| Raise (e : exn)
| Diverge.
Arguments Ok {A} a.
Arguments Raise {A} e.
Arguments Diverge {A}.

Definition obind {A B} (m : outcome A) (k : A -> outcome B) : outcome B :=
  match m with
  | Ok a => k a
  | Raise e => Raise e
  | Diverge => Diverge
  end.

Declare Scope out_scope.
Delimit Scope out_scope with out.
Notation "'let!' x ':=' m 'in' k" := (obind m (fun x => k))
  (at level 10, x name, m at level 100, k at level 200) : out_scope.
Local Open Scope out_scope.

(** ** Values *)

(** [PassedData], extended with what evaluation can produce.  [VObj] is
    a handle on a library object ([datetime], [timedelta], [relativedelta]). *)
Inductive PassedData :=
| VNone
| VBool (b : bool)
| VInt (z : Z)
| VFloat (f : spec_float)
| VStr (s : text)
| VObj (h : N).

(** ** binary64 *)

Definition prec : Z := 53.
Definition emax : Z := 1024.

Definition fadd := SFadd prec emax.
Definition fsub := SFsub prec emax.
Definition fmul := SFmul prec emax.
Definition fdiv := SFdiv prec emax.

Definition is_inf (f : spec_float) : bool :=
  match f with S754_infinity _ => true | _ => false end.

Definition is_fzero (f : spec_float) : bool :=
  match f with S754_zero _ => true | _ => false end.

(** Correctly rounded quotient [n / d] for [0 < d]. *)
Definition float_of_ratio (n d : Z) : spec_float :=
  match n with
  | Z0 => S754_zero false
  | _ =>
      let '(m, e, l) := SFdiv_core_binary prec emax (Z.abs n) 0 d 0 in
      binary_round_aux prec emax (n <? 0) m e l
  end.

(** [float(n)] for a Python int: round to nearest even, [OverflowError]
    when the int is too large. *)
Definition float_of_Z (z : Z) : outcome spec_float :=
  let f := binary_normalize prec emax z 0 false in
  if is_inf f then Raise OverflowError else Ok f.

(** The integer literal [z] as a float, for statements. *)
Definition flt (z : Z) : spec_float := binary_normalize prec emax z 0 false.

(** Exact comparison of an int with a float ([int.__lt__] and friends
    compare without converting the int). [None] for NaN. *)
Definition Z_float_compare (z : Z) (f : spec_float) : option comparison :=
  match f with
  | S754_nan => None
  | S754_infinity s => Some (if s then Gt else Lt)
  | S754_zero _ => Some (Z.compare z 0)
  | S754_finite s m e =>
      let v := if s then Z.neg m else Z.pos m in
      Some (if 0 <=? e then Z.compare z (v * 2 ^ e)
            else Z.compare (z * 2 ^ (- e)) v)
  end.

(** The integer a float is equal to, when there is one. *)
Definition float_integral (f : spec_float) : option Z :=
  match f with
  | S754_zero _ => Some 0
  | S754_finite s m e =>
      let v := if s then Z.neg m else Z.pos m in
      if 0 <=? e then Some (v * 2 ^ e)
      else if Z.eqb (Z.land (Z.pos m) (2 ^ (- e) - 1)) 0
           then Some (Z.shiftr v (- e)) else None
  | _ => None
  end.

(** ** Symbol registries *)

Inductive NodeType :=
| STRING | VARIABLE | TOKEN_GROUP | OPERATOR | COMPARATOR | FUNCTION
| CONSTANT | NUMBER.

Inductive OperatorType :=
| ADD | SUBTRACT | MULTIPLY | DIVIDE | MODULUS | INT_DIVIDE | FACTORIAL
| EXPONENTIAL.

(** The [operators] table: identifier, symbol, weight. *)
Definition operators : list (OperatorType * text * Z) :=
  [ (ADD, txt "+", 0); (SUBTRACT, txt "-", 0); (MULTIPLY, txt "*", 1);
    (DIVIDE, txt "/", 1); (MODULUS, txt "%", 1); (INT_DIVIDE, txt "//", 1);
    (FACTORIAL, txt "!", 3); (EXPONENTIAL, txt "^", 2) ].

Fixpoint assoc {A} (k : text) (l : list (A * text)) : option A :=
  match l with
  | [] => None
  | (a, s) :: l' => if text_eqb s k then Some a else assoc k l'
  end.

Definition operatorMap (v : text) : option OperatorType :=
  assoc v (List.map (fun o => (fst (fst o), snd (fst o))) operators).

Definition operatorWeightMap (v : text) : option Z :=
  assoc v (List.map (fun o => (snd o, snd (fst o))) operators).

Inductive ComparatorType :=
| EQUAL | LT | LTE | GT | GTE | NOT_EQUAL | OR | STRICT_OR | AND
| STRICT_AND.

Definition comparators : list (ComparatorType * text) :=
  [ (EQUAL, txt "=="); (LT, txt "<"); (LTE, txt "<="); (GT, txt ">");
    (GTE, txt ">="); (NOT_EQUAL, txt "!="); (OR, txt "|");
    (STRICT_OR, txt "||"); (AND, txt "&"); (STRICT_AND, txt "&&") ].

Definition comparatorMap (v : text) : option ComparatorType :=
  assoc v comparators.

Inductive FunctionType :=
| TODAY | AS_DATE | SECONDS | MINUTES | HOURS | DAYS | WEEKS | MONTHS
| YEARS | SUM | AVG | LOG10 | NATURAL_LOG | LOG | SQUARE_ROOT
| CHAR_LENGTH | NULL | IN.

Definition functions : list (FunctionType * text) :=
  [ (TODAY, txt "today"); (AS_DATE, txt "asDate");
    (SECONDS, txt "seconds"); (MINUTES, txt "minutes");
    (HOURS, txt "hours"); (DAYS, txt "days"); (WEEKS, txt "weeks");
    (MONTHS, txt "months"); (YEARS, txt "years"); (SUM, txt "sum");
    (AVG, txt "avg"); (LOG10, txt "log10"); (NATURAL_LOG, txt "ln");
    (LOG, txt "log"); (SQUARE_ROOT, txt "sqrt");
    (CHAR_LENGTH, txt "nchar"); (NULL, txt "isNull"); (IN, txt "in") ].

Definition functionMap (v : text) : option FunctionType :=
  assoc v functions.

Definition OperatorType_eqb (a b : OperatorType) : bool :=
  match a, b with
  | ADD, ADD | SUBTRACT, SUBTRACT | MULTIPLY, MULTIPLY | DIVIDE, DIVIDE
  | MODULUS, MODULUS | INT_DIVIDE, INT_DIVIDE | FACTORIAL, FACTORIAL
  | EXPONENTIAL, EXPONENTIAL => true
  | _, _ => false
  end.

Definition ComparatorType_eqb (a b : ComparatorType) : bool :=
  match a, b with
  | EQUAL, EQUAL | LT, LT | LTE, LTE | GT, GT | GTE, GTE
  | NOT_EQUAL, NOT_EQUAL | OR, OR | STRICT_OR, STRICT_OR | AND, AND
  | STRICT_AND, STRICT_AND => true
  | _, _ => false
  end.

Definition FunctionType_eqb (a b : FunctionType) : bool :=
  match a, b with
  | TODAY, TODAY | AS_DATE, AS_DATE | SECONDS, SECONDS | MINUTES, MINUTES
  | HOURS, HOURS | DAYS, DAYS | WEEKS, WEEKS | MONTHS, MONTHS
  | YEARS, YEARS | SUM, SUM | AVG, AVG | LOG10, LOG10
  | NATURAL_LOG, NATURAL_LOG | LOG, LOG | SQUARE_ROOT, SQUARE_ROOT
  | CHAR_LENGTH, CHAR_LENGTH | NULL, NULL | IN, IN => true
  | _, _ => false
  end.

(** ** The host libraries *)

(** What the source imports and this development does not define: the
    [datetime] and [dateutil] objects, the transcendental functions of
    [math], float remainder and power, [%]-formatting of strings, and
    object identity (used by [in]). *)
Record Host := {
  (** [math.factorial] accepts floats with an integral value (it does up
      to Python 3.9 and raises [TypeError] from 3.10 on). *)
  legacy_factorial : bool;
  (** [float(s)] for a text outside the tokenizer's [[0-9.]+]. *)
  float_of_text : text -> outcome PassedData;
  datetime_now : outcome PassedData;
  strptime : PassedData -> PassedData -> outcome PassedData;
  (** [timedelta(seconds=v)] ... [relativedelta(years=v)] *)
  make_delta : FunctionType -> PassedData -> outcome PassedData;
  (** an operator or comparison with a library object among its operands *)
  obj_arith : OperatorType -> PassedData -> PassedData -> outcome PassedData;
  obj_compare : ComparatorType -> PassedData -> PassedData -> outcome bool;
  obj_truth : N -> bool;
  obj_abs : N -> outcome PassedData;
  float_mod : spec_float -> spec_float -> outcome PassedData;
  float_floordiv : spec_float -> spec_float -> outcome PassedData;
  float_pow : spec_float -> spec_float -> outcome PassedData;
  str_mod : text -> PassedData -> outcome PassedData;
  (** [math.log(x)] and [math.log(x, base)] *)
  math_log : PassedData -> option PassedData -> outcome PassedData;
  (** [a is b] *)
  same_object : PassedData -> PassedData -> bool
}.

(** ** Python operations on values *)

Inductive num := NInt (z : Z) | NFloat (f : spec_float).

(** [bool] is a subclass of [int]. *)
Definition as_num (v : PassedData) : option num :=
  match v with
  | VBool b => Some (NInt (Z.b2z b))
  | VInt z => Some (NInt z)
  | VFloat f => Some (NFloat f)
  | _ => None
  end.

Definition num_float (n : num) : outcome spec_float :=
  match n with
  | NInt z => float_of_Z z
  | NFloat f => Ok f
  end.

Definition is_obj (v : PassedData) : bool :=
  match v with VObj _ => true | _ => false end.

Definition repeat_text (s : text) (n : Z) : text :=
  List.concat (List.repeat s (Z.to_nat n)).

Section Operations.
Variable H : Host.

Definition float_op (f : spec_float -> spec_float -> outcome PassedData)
    (x y : num) : outcome PassedData :=
  let! fx := num_float x in
  let! fy := num_float y in
  f fx fy.

Definition py_add (a b : PassedData) : outcome PassedData :=
  if is_obj a || is_obj b then obj_arith H ADD a b else
  match a, b with
  | VStr s, VStr t => Ok (VStr (s ++ t))
  | _, _ =>
      match as_num a, as_num b with
      | Some (NInt x), Some (NInt y) => Ok (VInt (x + y))
      | Some x, Some y => float_op (fun p q => Ok (VFloat (fadd p q))) x y
      | _, _ => Raise TypeError
      end
  end.

Definition py_sub (a b : PassedData) : outcome PassedData :=
  if is_obj a || is_obj b then obj_arith H SUBTRACT a b else
  match as_num a, as_num b with
  | Some (NInt x), Some (NInt y) => Ok (VInt (x - y))
  | Some x, Some y => float_op (fun p q => Ok (VFloat (fsub p q))) x y
  | _, _ => Raise TypeError
  end.

Definition py_mul (a b : PassedData) : outcome PassedData :=
  if is_obj a || is_obj b then obj_arith H MULTIPLY a b else
  match a, b with
  | VStr s, (VBool _ | VInt _) | (VBool _ | VInt _), VStr s =>
      match as_num a, as_num b with
      | Some (NInt n), _ | _, Some (NInt n) => Ok (VStr (repeat_text s n))
      | _, _ => Raise TypeError
      end
  | _, _ =>
      match as_num a, as_num b with
      | Some (NInt x), Some (NInt y) => Ok (VInt (x * y))
      | Some x, Some y => float_op (fun p q => Ok (VFloat (fmul p q))) x y
      | _, _ => Raise TypeError
      end
  end.

Definition py_truediv (a b : PassedData) : outcome PassedData :=
  if is_obj a || is_obj b then obj_arith H DIVIDE a b else
  match as_num a, as_num b with
  | Some (NInt x), Some (NInt y) =>
      if y =? 0 then Raise ZeroDivisionError else
      let f := if x =? 0 then S754_zero (y <? 0)
               else if y <? 0 then float_of_ratio (- x) (- y)
               else float_of_ratio x y in
      if is_inf f then Raise OverflowError else Ok (VFloat f)
  | Some x, Some y =>
      float_op (fun p q => if is_fzero q then Raise ZeroDivisionError
                           else Ok (VFloat (fdiv p q))) x y
  | _, _ => Raise TypeError
  end.

Definition py_mod (a b : PassedData) : outcome PassedData :=
  if is_obj a || is_obj b then obj_arith H MODULUS a b else
  match a with
  | VStr s => str_mod H s b
  | _ =>
      match as_num a, as_num b with
      | Some (NInt x), Some (NInt y) =>
          if y =? 0 then Raise ZeroDivisionError else Ok (VInt (x mod y))
      | Some x, Some y => float_op (float_mod H) x y
      | _, _ => Raise TypeError
      end
  end.

Definition py_floordiv (a b : PassedData) : outcome PassedData :=
  if is_obj a || is_obj b then obj_arith H INT_DIVIDE a b else
  match as_num a, as_num b with
  | Some (NInt x), Some (NInt y) =>
      if y =? 0 then Raise ZeroDivisionError else Ok (VInt (x / y))
  | Some x, Some y => float_op (float_floordiv H) x y
  | _, _ => Raise TypeError
  end.

Definition py_pow (a b : PassedData) : outcome PassedData :=
  if is_obj a || is_obj b then obj_arith H EXPONENTIAL a b else
  match as_num a, as_num b with
  | Some (NInt x), Some (NInt y) =>
      if 0 <=? y then Ok (VInt (x ^ y))
      else float_op (float_pow H) (NInt x) (NInt y)
  | Some x, Some y => float_op (float_pow H) x y
  | _, _ => Raise TypeError
  end.

Definition py_abs (a : PassedData) : outcome PassedData :=
  match a with
  | VObj h => obj_abs H h
  | VBool b => Ok (VInt (Z.b2z b))
  | VInt z => Ok (VInt (Z.abs z))
  | VFloat f => Ok (VFloat (SFabs f))
  | _ => Raise TypeError
  end.

Fixpoint zfact (n : nat) : Z :=
  match n with
  | O => 1
  | S k => Z.of_nat n * zfact k
  end.

Definition factorial_int (z : Z) : outcome PassedData :=
  if z <? 0 then Raise ValueError
  else if 9223372036854775807 <? z then Raise OverflowError
  else Ok (VInt (zfact (Z.to_nat z))).

(** [math.factorial] *)
Definition factorial (a : PassedData) : outcome PassedData :=
  match a with
  | VBool b => factorial_int (Z.b2z b)
  | VInt z => factorial_int z
  | VFloat f =>
      if legacy_factorial H then
        match float_integral f with
        | Some z => factorial_int z
        | None => Raise ValueError
        end
      else Raise TypeError
  | _ => Raise TypeError
  end.

Definition num_compare (x y : num) : option comparison :=
  match x, y with
  | NInt p, NInt q => Some (Z.compare p q)
  | NFloat p, NFloat q => SFcompare p q
  | NInt p, NFloat q => Z_float_compare p q
  | NFloat p, NInt q => option_map CompOpp (Z_float_compare q p)
  end.

(** [a == b] for values that are not library objects. *)
Definition value_eqb (a b : PassedData) : bool :=
  match a, b with
  | VNone, VNone => true
  | VStr s, VStr t => text_eqb s t
  | _, _ =>
      match as_num a, as_num b with
      | Some x, Some y =>
          match num_compare x y with Some Eq => true | _ => false end
      | _, _ => false
      end
  end.

Definition py_eq (a b : PassedData) : outcome bool :=
  if is_obj a || is_obj b then obj_compare H EQUAL a b
  else Ok (value_eqb a b).

Definition py_ne (a b : PassedData) : outcome bool :=
  if is_obj a || is_obj b then obj_compare H NOT_EQUAL a b
  else Ok (negb (value_eqb a b)).

(** The ordering comparisons; [test] reads the three-way result. *)
Definition py_order (c : ComparatorType) (test : comparison -> bool)
    (a b : PassedData) : outcome bool :=
  if is_obj a || is_obj b then obj_compare H c a b else
  match a, b with
  | VStr s, VStr t => Ok (test (text_compare s t))
  | _, _ =>
      match as_num a, as_num b with
      | Some x, Some y =>
          Ok (match num_compare x y with
              | Some r => test r
              | None => false
              end)
      | _, _ => Raise TypeError
      end
  end.

Definition py_lt := py_order LT (fun r => match r with Lt => true | _ => false end).
Definition py_le := py_order LTE (fun r => match r with Gt => false | _ => true end).
Definition py_gt := py_order GT (fun r => match r with Gt => true | _ => false end).
Definition py_ge := py_order GTE (fun r => match r with Lt => false | _ => true end).

(** [bool(a)] *)
Definition truth (a : PassedData) : bool :=
  match a with
  | VNone => false
  | VBool b => b
  | VInt z => negb (z =? 0)
  | VFloat f => negb (is_fzero f)
  | VStr s => match s with [] => false | _ => true end
  | VObj h => obj_truth H h
  end.

(** [len(a)] *)
Definition py_len (a : PassedData) : outcome PassedData :=
  match a with
  | VStr s => Ok (VInt (Z.of_nat (length s)))
  | _ => Raise TypeError
  end.

(** [x is y or x == y], the test [in] applies to each element. *)
Definition contains_eq (x y : PassedData) : outcome bool :=
  if same_object H x y then Ok true else py_eq x y.

End Operations.

(** ** The tokenizer *)

(** Character classes of [tokenRegex] under [re.IGNORECASE]: [[a-z]] then
    also matches the capitals and the four letters whose case folding
    is an ASCII letter. *)
Definition in_range (lo hi c : N) : bool := (N.leb lo c && N.leb c hi)%N.

Definition is_letter (c : N) : bool :=
  in_range 97 122 c || in_range 65 90 c
  || N.eqb c 304 || N.eqb c 305 || N.eqb c 383 || N.eqb c 8490.

Definition is_digit (c : N) : bool := in_range 48 57 c.

(** [\s] on [str]: the code points for which [str.isspace] holds. *)
Definition is_space (c : N) : bool :=
  in_range 9 13 c || in_range 28 32 c || N.eqb c 133 || N.eqb c 160
  || N.eqb c 5760 || in_range 8192 8202 c || N.eqb c 8232
  || N.eqb c 8233 || N.eqb c 8239 || N.eqb c 8287 || N.eqb c 12288.

Definition LPAREN : N := 40.
Definition RPAREN : N := 41.
Definition QUOTE : N := 34.
Definition LBRACKET : N := 91.
Definition RBRACKET : N := 93.
Definition NEWLINE : N := 10.
Definition COMMA : N := 44.
Definition DOT : N := 46.
Definition UNDERSCORE : N := 95.

(** [[a-z_]] *)
Definition is_var_char (c : N) : bool := is_letter c || N.eqb c UNDERSCORE.

(** [[a-z_0-9]] *)
Definition is_ident_char (c : N) : bool :=
  is_letter c || N.eqb c UNDERSCORE || is_digit c.

(** [[0-9.]] *)
Definition is_number_char (c : N) : bool := is_digit c || N.eqb c DOT.

(** The class of the last alternative: none of letters, digits, brackets,
    parentheses, the quote and white space. *)
Definition is_operator_char (c : N) : bool :=
  negb (is_letter c || is_digit c || N.eqb c LBRACKET || N.eqb c RBRACKET
        || N.eqb c LPAREN || N.eqb c RPAREN || N.eqb c QUOTE || is_space c).

(** Length of the longest prefix whose characters satisfy [p]. *)
Fixpoint run_length (p : N -> bool) (s : text) : nat :=
  match s with
  | c :: s' => if p c then S (run_length p s') else O
  | [] => O
  end.

Definition starts_with (c : N) (s : text) : bool :=
  match s with
  | d :: _ => N.eqb c d
  | [] => false
  end.

Definition prev_is (c : N) (prev : option N) : bool :=
  match prev with
  | Some d => N.eqb c d
  | None => false
  end.

(** Index of the last [c] in [s] at a position [>= 1], counting from
    [i] for the head. *)
Fixpoint last_index_from (c : N) (s : text) (i : nat) : option nat :=
  match s with
  | [] => None
  | d :: s' =>
      match last_index_from c s' (S i) with
      | Some k => Some k
      | None => if N.eqb c d && negb (Nat.eqb i 0) then Some i else None
      end
  end.

(** Alternative 1, [(?<=\").+(?=\")]: after a quote, the longest run of
    characters other than a newline that a quote follows. *)
Definition match_string (prev : option N) (s : text) : option nat :=
  if prev_is QUOTE prev then
    let line := firstn (run_length (fun c => negb (N.eqb c NEWLINE)) s) s in
    last_index_from QUOTE line 0
  else None.

(** Alternative 2, [(?<=\[)[a-z_]+(?=\])]. *)
Definition match_variable (prev : option N) (s : text) : option nat :=
  if prev_is LBRACKET prev then
    let n := run_length is_var_char s in
    if negb (Nat.eqb n 0) && starts_with RBRACKET (skipn n s)
    then Some n else None
  else None.

(** Alternative 3: a parenthesized group nested at most three deep.  A
    match is a balanced text whose first parenthesis closes at its end,
    so it is found by counting depth; [depth] is the number of open
    parentheses and [n] the characters read so far. *)
Fixpoint group_length (s : text) (depth n : nat) : option nat :=
  match s with
  | [] => None
  | c :: s' =>
      if N.eqb c LPAREN then
        if Nat.ltb depth 3 then group_length s' (S depth) (S n) else None
      else if N.eqb c RPAREN then
        match depth with
        | O => None
        | S O => Some (S n)
        | S d => group_length s' d (S n)
        end
      else
        match depth with
        | O => None
        | _ => group_length s' depth (S n)
        end
  end.

Definition match_group (s : text) : option nat := group_length s 0 0.

Fixpoint is_prefix (p s : text) : bool :=
  match p, s with
  | [], _ => true
  | x :: p', y :: s' => N.eqb x y && is_prefix p' s'
  | _ :: _, [] => false
  end.

Fixpoint first_prefix (ps : list text) (s : text) : option nat :=
  match ps with
  | [] => None
  | p :: ps' => if is_prefix p s then Some (length p) else first_prefix ps' s
  end.

(** Alternative 4, in the order of the pattern. *)
Definition match_comparator (s : text) : option nat :=
  first_prefix [txt "=="; txt "!="; txt "<="; txt "<"; txt ">="; txt ">";
                txt "||"; txt "|"; txt "&&"; txt "&"] s.

(** [[a-z][a-z_0-9]+]: the length of the identifier at the head. *)
Definition identifier_length (s : text) : option nat :=
  match s with
  | c :: s' =>
      let n := run_length is_ident_char s' in
      if is_letter c && negb (Nat.eqb n 0) then Some (S n) else None
  | [] => None
  end.

(** Alternative 5: an identifier that [(] follows. *)
Definition match_function (s : text) : option nat :=
  match identifier_length s with
  | Some n => if starts_with LPAREN (skipn n s) then Some n else None
  | None => None
  end.

Definition match_run (p : N -> bool) (s : text) : option nat :=
  let n := run_length p s in
  if Nat.eqb n 0 then None else Some n.

(** [nodeTypes] with the match at the head of [s]: the first alternative
    of [tokenRegex] that matches, and how much it takes. *)
Definition match_here (prev : option N) (s : text) : option (NodeType * nat) :=
  match match_string prev s with Some n => Some (STRING, n) | None =>
  match match_variable prev s with Some n => Some (VARIABLE, n) | None =>
  match match_group s with Some n => Some (TOKEN_GROUP, n) | None =>
  match match_comparator s with Some n => Some (COMPARATOR, n) | None =>
  match match_function s with Some n => Some (FUNCTION, n) | None =>
  match identifier_length s with Some n => Some (CONSTANT, n) | None =>
  match match_run is_number_char s with Some n => Some (NUMBER, n) | None =>
  match match_run is_operator_char s with Some n => Some (OPERATOR, n)
  | None => None
  end end end end end end end end.

(** [re.finditer]: matches from left to right, the scan resuming at the
    end of each match and one character further where nothing matches.
    [skip] counts the characters of the current match still to pass. *)
Fixpoint finditer (skip : nat) (prev : option N) (s : text)
    : list (NodeType * text) :=
  match s with
  | [] => []
  | c :: s' =>
      match skip with
      | S k => finditer k (Some c) s'
      | O =>
          match match_here prev s with
          | Some (t, n) => (t, firstn n s) :: finditer (Nat.pred n) (Some c) s'
          | None => finditer O (Some c) s'
          end
      end
  end.

(** [re.sub('^\(+|\)+$', '', value)]: the run of [(] at the start goes,
    and the run of [)] at the end, or before a final newline. *)
Definition strip_end (c : N) (all : bool) (s : text) : text :=
  let cut r := if all then skipn (run_length (N.eqb c) r) r
               else match r with
                    | d :: r' => if N.eqb c d then r' else r
                    | [] => []
                    end in
  match rev s with
  | d :: r =>
      if N.eqb c d then rev (cut (d :: r))
      else if N.eqb d NEWLINE then rev (cut r) ++ [NEWLINE]
      else s
  | [] => []
  end.

Definition sub_parens (v : text) : text :=
  strip_end RPAREN true (skipn (run_length (N.eqb LPAREN) v) v).

(** [re.sub('^\"|\"$', '', value)]: one quote at the start, one at the
    end. *)
Definition sub_quotes (v : text) : text :=
  strip_end QUOTE false
    match v with
    | c :: v' => if N.eqb QUOTE c then v' else v
    | [] => []
    end.

(** [re.split(r",\s*(?![^()]*\))", value)]: a comma separates when the
    next parenthesis after it, if any, opens; the white space after a
    separating comma belongs to the separator. *)
Fixpoint closes_first (s : text) : bool :=
  match s with
  | [] => false
  | c :: s' =>
      if N.eqb c RPAREN then true
      else if N.eqb c LPAREN then false
      else closes_first s'
  end.

Fixpoint split_text (s cur : text) (skipping : bool) : list text :=
  match s with
  | [] => [rev cur]
  | c :: s' =>
      if skipping && is_space c then split_text s' cur true
      else if N.eqb c COMMA && negb (closes_first s')
           then rev cur :: split_text s' [] true
      else split_text s' (c :: cur) false
  end.

(** ** Nodes and the store *)

(** The class of a node object, with the attributes its constructor
    resolves. [CNode] is the base class, whose [type] is [None]. *)
Inductive NodeClass :=
| CNode
| CStringNode
| CNumberNode
| CConstantNode
| CVariableNode
| COperatorNode (operator : OperatorType) (weight : Z)
| CComparatorNode (comparator : ComparatorType)
| CFunctionNode (function : FunctionType)
| CTokenGroupNode.

Record Node := mkNode {
  cls : NodeClass;
  value : option text;
  node_a : option nat;
  node_b : option nat;
  arguments : list nat
}.

Definition type (n : Node) : option NodeType :=
  match cls n with
  | CNode => None
  | CStringNode => Some STRING
  | CNumberNode => Some NUMBER
  | CConstantNode => Some CONSTANT
  | CVariableNode => Some VARIABLE
  | COperatorNode _ _ => Some OPERATOR
  | CComparatorNode _ => Some COMPARATOR
  | CFunctionNode _ => Some FUNCTION
  | CTokenGroupNode => Some TOKEN_GROUP
  end.

Definition is_type (t : NodeType) (n : Node) : bool :=
  match type n, t with
  | Some STRING, STRING | Some VARIABLE, VARIABLE
  | Some TOKEN_GROUP, TOKEN_GROUP | Some OPERATOR, OPERATOR
  | Some COMPARATOR, COMPARATOR | Some FUNCTION, FUNCTION
  | Some CONSTANT, CONSTANT | Some NUMBER, NUMBER => true
  | _, _ => false
  end.

Definition node_weight (n : Node) : Z :=
  match cls n with
  | COperatorNode _ w => w
  | _ => 0
  end.

(** A fresh object of class [c] built from [v]. *)
Definition fresh (c : NodeClass) (v : option text) : Node :=
  mkNode c v None None [].

(** Node objects, addressed by their position. *)
Abbreviation Store := (list Node).

(** Computations over the store; the store is returned on every outcome,
    also when an exception leaves through the computation. *)
Definition M (A : Type) := Store -> outcome A * Store.

Definition ret {A} (a : A) : M A := fun h => (Ok a, h).

Definition bind {A B} (m : M A) (k : A -> M B) : M B :=
  fun h =>
    match m h with
    | (Ok a, h') => k a h'
    | (Raise e, h') => (Raise e, h')
    | (Diverge, h') => (Diverge, h')
    end.

Definition raise {A} (e : exn) : M A := fun h => (Raise e, h).
Definition diverge {A} : M A := fun h => (Diverge, h).

Definition lift {A} (o : outcome A) : M A := fun h => (o, h).

Declare Scope store_scope.
Delimit Scope store_scope with store.
Notation "x <- m ;; k" := (bind m (fun x => k))
  (at level 100, m at next level, right associativity) : store_scope.
Notation "m ;; k" := (bind m (fun _ => k))
  (at level 100, right associativity) : store_scope.
Local Open Scope store_scope.

(** Object creation. *)
Definition new (n : Node) : M nat := fun h => (Ok (length h), h ++ [n]).

(** Attribute reads ([Diverge] on a reference to no object, which no
    store built by the program contains). *)
Definition get (i : nat) : M Node :=
  fun h =>
    match h !! i with
    | Some n => (Ok n, h)
    | None => (Diverge, h)
    end.

(** Attribute writes. *)
Definition update (i : nat) (f : Node -> Node) : M unit :=
  fun h =>
    match h !! i with
    | Some n => (Ok tt, <[i := f n]> h)
    | None => (Diverge, h)
    end.

Definition set_node_a (i : nat) (a : option nat) : M unit :=
  update i (fun n => mkNode (cls n) (value n) a (node_b n) (arguments n)).

Definition set_node_b (i : nat) (b : option nat) : M unit :=
  update i (fun n => mkNode (cls n) (value n) (node_a n) b (arguments n)).

Definition set_arguments (i : nat) (args : list nat) : M unit :=
  update i (fun n => mkNode (cls n) (value n) (node_a n) (node_b n) args).

(** ** Token construction *)

Definition createToken (t : NodeType) (v : text) : M nat :=
  match t with
  | STRING => new (fresh CStringNode (Some (sub_quotes v)))
  | VARIABLE => new (fresh CVariableNode (Some v))
  | TOKEN_GROUP => new (fresh CTokenGroupNode (Some v))
  | COMPARATOR =>
      match comparatorMap v with
      | Some c => new (fresh (CComparatorNode c) (Some v))
      | None => raise (Exception (txt "Invalid Comparator: " ++ v))
      end
  | OPERATOR =>
      match operatorMap v, operatorWeightMap v with
      | Some o, Some w => new (fresh (COperatorNode o w) (Some v))
      | _, _ => raise (Exception (txt "Invalid Operator: " ++ v))
      end
  | FUNCTION =>
      match functionMap v with
      | Some f => new (fresh (CFunctionNode f) (Some v))
      | None => raise (Exception (txt "Invalid Function: " ++ v))
      end
  | CONSTANT => new (fresh CConstantNode (Some v))
  | NUMBER => new (fresh CNumberNode (Some v))
  end.

(** The loop of [extractNodes] over the matches. *)
Fixpoint make_nodes (ms : list (NodeType * text)) : M (list nat) :=
  match ms with
  | [] => ret []
  | (t, v) :: ms' =>
      let v' := match t with TOKEN_GROUP => sub_parens v | _ => v end in
      match t, v' with
      | TOKEN_GROUP, [] => make_nodes ms'
      | _, _ =>
          i <- createToken t v' ;;
          nodes <- make_nodes ms' ;;
          ret (i :: nodes)
      end
  end.

Definition extractNodes (expression : text) : M (list nat) :=
  make_nodes (finditer 0 None expression).

(** [TokenGroupNode.split] *)
Fixpoint new_groups (vs : list text) : M (list nat) :=
  match vs with
  | [] => ret []
  | v :: vs' =>
      i <- new (fresh CTokenGroupNode (Some v)) ;;
      l <- new_groups vs' ;;
      ret (i :: l)
  end.

Definition split (n : Node) : M (list nat) :=
  match value n with
  | Some v => new_groups (split_text v [] false)
  | None => raise TypeError
  end.

(** ** The tree builder *)

Definition Some_is_type (t : NodeType) (o : option Node) : bool :=
  match o with
  | Some n => is_type t n
  | None => false
  end.

(** A child slot read through the store. *)
Definition get_opt (o : option nat) : M (option Node) :=
  match o with
  | Some i => n <- get i ;; ret (Some n)
  | None => ret None
  end.

Definition is_None {A} (o : option A) : bool :=
  match o with
  | None => true
  | Some _ => false
  end.

(** How [createExpressionTree] attaches a group token [node] to [base],
    the [elif node.type is NodeType.TOKEN_GROUP] branch. *)
Definition attach_group (base node : nat) : M unit :=
  b <- get base ;;
  n <- get node ;;
  nb <- get_opt (node_b b) ;;
  if Some_is_type FUNCTION nb then
    args <- split n ;;
    match node_b b with
    | Some i => set_arguments i args
    | None => ret tt
    end
  else
    na <- get_opt (node_a b) ;;
    if Some_is_type FUNCTION na then
      args <- split n ;;
      match node_a b with
      | Some i => set_arguments i args
      | None => ret tt
      end
    else if is_type FUNCTION b then
      args <- split n ;;
      set_arguments base args
    else if is_None (node_a b) then set_node_a base (Some node)
    else if is_None (node_b b) then set_node_b base (Some node)
    else raise (Exception (txt "Invalid Syntax")).

(** [createExpressionTree(base, nodes)].  The list [nodes] is one
    mutable object that every recursive call pops from, so the calls
    return what is left of it with the root.  One unit of [fuel] is one
    level of the recursion. *)
Fixpoint createExpressionTree (fuel : nat) (base : nat) (nodes : list nat)
    : M (nat * list nat) :=
  match fuel with
  | O => diverge
  | S fuel' =>
      match nodes with
      | [] => ret (base, [])
      | node :: nodes =>
          n <- get node ;;
          b <- get base ;;
          if is_type OPERATOR n then
            if is_type OPERATOR b && (node_weight b <? node_weight n) then
              set_node_a node (node_b b) ;;
              r <- createExpressionTree fuel' node nodes ;;
              set_node_b base (Some (fst r)) ;;
              createExpressionTree fuel' base (snd r)
            else
              set_node_a node (Some base) ;;
              createExpressionTree fuel' node nodes
          else if is_type COMPARATOR n then
            set_node_a node (Some base) ;;
            r <- match nodes with
                 | next :: nodes' => createExpressionTree fuel' next nodes'
                 | [] =>
                     e <- new (fresh CNode None) ;;
                     createExpressionTree fuel' e []
                 end ;;
            set_node_b node (Some (fst r)) ;;
            createExpressionTree fuel' base (snd r)
          else if is_type TOKEN_GROUP n then
            attach_group base node ;;
            createExpressionTree fuel' base nodes
          else if is_None (value b) then
            createExpressionTree fuel' node nodes
          else if is_None (node_a b) then
            set_node_a base (Some node) ;;
            createExpressionTree fuel' base nodes
          else if is_None (node_b b) then
            set_node_b base (Some node) ;;
            createExpressionTree fuel' base nodes
          else raise (Exception (txt "Invalid Syntax"))
      end
  end.

(** [float(self.value)] *)
Fixpoint digits_value (s : text) (acc : Z) : Z :=
  match s with
  | [] => acc
  | c :: s' => digits_value s' (10 * acc + (Z.of_N c - 48))
  end.

Definition float (H : Host) (v : option text) : outcome PassedData :=
  match v with
  | None => Raise TypeError
  | Some s =>
      if forallb is_number_char s then
        let ip := firstn (run_length is_digit s) s in
        match skipn (length ip) s with
        | [] =>
            match ip with
            | [] => Raise ValueError
            | _ => Ok (VFloat (float_of_ratio (digits_value ip 0) 1))
            end
        | _ :: fp =>
            if forallb is_digit fp && negb (Nat.eqb (length (ip ++ fp)) 0)
            then Ok (VFloat (float_of_ratio (digits_value (ip ++ fp) 0)
                                            (10 ^ Z.of_nat (length fp))))
            else Raise ValueError
        end
      else float_of_text H s
  end.

(** ** The evaluator *)

(** [math.pi] and [0.5] *)
Definition pi : spec_float := S754_finite false 7074237752028440 (-51).
Definition half : spec_float := binary_normalize prec emax 1 (-1) false.

(** [str(x)] for an optional text *)
Definition str (v : option text) : text :=
  match v with
  | Some s => s
  | None => txt "None"
  end.

Definition is_pi (v : option text) : bool :=
  match v with
  | Some s => text_eqb s (txt "pi")
  | None => false
  end.

Section Evaluator.
Variable H : Host.
(** the keyword arguments [kwargs] *)
Variable kwargs : gmap text PassedData.

(** [kwargs.get(self.value, None)] *)
Definition kwargs_get (v : option text) : PassedData :=
  match v with
  | Some s => default VNone (kwargs !! s)
  | None => VNone
  end.

(** [node.exec()] applied to the keywords, through an optional slot: [None] has no
    [exec]. *)
Definition exec_slot (exec : nat -> M PassedData) (o : option nat)
    : M PassedData :=
  match o with
  | Some i => exec i
  | None => raise AttributeError
  end.

Definition binary (exec : nat -> M PassedData)
    (op : PassedData -> PassedData -> outcome PassedData)
    (a b : option nat) : M PassedData :=
  x <- exec_slot exec a ;;
  y <- exec_slot exec b ;;
  lift (op x y).

Definition compare (exec : nat -> M PassedData)
    (op : PassedData -> PassedData -> outcome bool)
    (a b : option nat) : M PassedData :=
  x <- exec_slot exec a ;;
  y <- exec_slot exec b ;;
  r <- lift (op x y) ;;
  ret (VBool r).

(** [OperatorNode.exec] *)
Definition exec_operator (exec : nat -> M PassedData) (n : Node)
    (operator : OperatorType) : M PassedData :=
  if is_None (node_a n) && is_None (node_b n) then
    raise (Exception (txt "Both targets on opperand are None"))
  else if OperatorType_eqb operator ADD then
    if is_None (node_a n) then
      y <- exec_slot exec (node_b n) ;; lift (py_abs H y)
    else binary exec (py_add H) (node_a n) (node_b n)
  else if OperatorType_eqb operator SUBTRACT then
    a <- get_opt (node_a n) ;;
    if match a with
       | None => true
       | Some na => is_None (value na)
       end
    then y <- exec_slot exec (node_b n) ;; lift (py_mul H (VInt (-1)) y)
    else binary exec (py_sub H) (node_a n) (node_b n)
  else if OperatorType_eqb operator FACTORIAL then
    if is_None (node_b n) then
      x <- exec_slot exec (node_a n) ;; lift (factorial H x)
    else raise (Exception (txt "Factorial Operand can not have second target"))
  else if is_None (node_a n) || is_None (node_b n) then
    raise (Exception (txt "One target on opperand is None"))
  else if OperatorType_eqb operator MULTIPLY then
    binary exec (py_mul H) (node_a n) (node_b n)
  else if OperatorType_eqb operator DIVIDE then
    binary exec (py_truediv H) (node_a n) (node_b n)
  else if OperatorType_eqb operator MODULUS then
    binary exec (py_mod H) (node_a n) (node_b n)
  else if OperatorType_eqb operator INT_DIVIDE then
    binary exec (py_floordiv H) (node_a n) (node_b n)
  else if OperatorType_eqb operator EXPONENTIAL then
    binary exec (py_pow H) (node_a n) (node_b n)
  else ret VNone.

(** [ComparatorNode.exec], branch by branch in the order of the source;
    the second [NOT_EQUAL] test is the one at line 208. *)
Definition exec_comparator (exec : nat -> M PassedData) (n : Node)
    (comparator : ComparatorType) : M PassedData :=
  if is_None (node_a n) || is_None (node_b n) then
    raise (Exception (txt "1 of 2 targets on comparator is None"))
  else if ComparatorType_eqb comparator EQUAL then
    compare exec (py_eq H) (node_a n) (node_b n)
  else if ComparatorType_eqb comparator NOT_EQUAL then
    compare exec (py_ne H) (node_a n) (node_b n)
  else if ComparatorType_eqb comparator LT then
    compare exec (py_lt H) (node_a n) (node_b n)
  else if ComparatorType_eqb comparator LTE then
    compare exec (py_le H) (node_a n) (node_b n)
  else if ComparatorType_eqb comparator GT then
    compare exec (py_gt H) (node_a n) (node_b n)
  else if ComparatorType_eqb comparator GTE then
    compare exec (py_ge H) (node_a n) (node_b n)
  else if ComparatorType_eqb comparator NOT_EQUAL then
    compare exec (py_ge H) (node_a n) (node_b n)
  else if ComparatorType_eqb comparator OR then
    x <- exec_slot exec (node_a n) ;;
    if truth H x then ret x else exec_slot exec (node_b n)
  else if ComparatorType_eqb comparator STRICT_OR then
    x <- exec_slot exec (node_a n) ;;
    if truth H x then ret (VBool true)
    else y <- exec_slot exec (node_b n) ;; ret (VBool (truth H y))
  else if ComparatorType_eqb comparator AND then
    x <- exec_slot exec (node_a n) ;;
    if truth H x then exec_slot exec (node_b n) else ret x
  else if ComparatorType_eqb comparator STRICT_AND then
    x <- exec_slot exec (node_a n) ;;
    if truth H x
    then y <- exec_slot exec (node_b n) ;; ret (VBool (truth H y))
    else ret (VBool false)
  else raise (Exception (txt "Invalid comparator")).

(** [self.arguments[i].exec()] applied to the keywords *)
Definition exec_argument (exec : nat -> M PassedData) (args : list nat)
    (i : nat) : M PassedData :=
  match args !! i with
  | Some a => exec a
  | None => raise IndexError
  end.

(** [sum(map(..., self.arguments))]: a left fold
    from [0] that evaluates each argument when it reaches it.  This is
    the summation of CPython up to 3.11; from 3.12 on the built-in adds
    floats with a compensation term, which can change the last bit of
    a float sum and nothing else. *)
Fixpoint sum_arguments (exec : nat -> M PassedData) (args : list nat)
    (acc : PassedData) : M PassedData :=
  match args with
  | [] => ret acc
  | a :: args' =>
      v <- exec a ;;
      acc' <- lift (py_add H acc v) ;;
      sum_arguments exec args' acc'
  end.

(** [x in map(..., args)]: the search stops at
    the first element that is [x]. *)
Fixpoint in_arguments (exec : nat -> M PassedData) (x : PassedData)
    (args : list nat) : M PassedData :=
  match args with
  | [] => ret (VBool false)
  | a :: args' =>
      v <- exec a ;;
      found <- lift (contains_eq H v x) ;;
      if found then ret (VBool true) else in_arguments exec x args'
  end.

Definition is_delta (f : FunctionType) : bool :=
  match f with
  | SECONDS | MINUTES | HOURS | DAYS | WEEKS | MONTHS | YEARS => true
  | _ => false
  end.

(** [FunctionNode.exec] *)
Definition exec_function (exec : nat -> M PassedData) (n : Node)
    (function : FunctionType) : M PassedData :=
  let args := arguments n in
  let second (dflt : PassedData) : M PassedData :=
    if Nat.ltb 1 (length args) then exec_argument exec args 1
    else ret dflt in
  if FunctionType_eqb function TODAY then
    (* [lambda : datetime.now()] takes no keyword *)
    if decide (kwargs = ∅) then lift (datetime_now H) else raise TypeError
  else if Nat.eqb (length args) 0 then
    raise (Exception (txt "Function argument is None"))
  else if FunctionType_eqb function AS_DATE then
    x <- exec_argument exec args 0 ;;
    y <- second (VStr (txt "%m/%d/%Y")) ;;
    lift (strptime H x y)
  else if is_delta function then
    x <- exec_argument exec args 0 ;; lift (make_delta H function x)
  else if FunctionType_eqb function SUM then
    sum_arguments exec args (VInt 0)
  else if FunctionType_eqb function AVG then
    s <- sum_arguments exec args (VInt 0) ;;
    lift (py_truediv H s (VInt (Z.of_nat (length args))))
  else if FunctionType_eqb function LOG10 then
    x <- exec_argument exec args 0 ;; lift (math_log H x (Some (VInt 10)))
  else if FunctionType_eqb function NATURAL_LOG then
    x <- exec_argument exec args 0 ;; lift (math_log H x None)
  else if FunctionType_eqb function LOG then
    x <- exec_argument exec args 0 ;;
    y <- second (VInt 10) ;;
    lift (math_log H x (Some y))
  else if FunctionType_eqb function SQUARE_ROOT then
    x <- exec_argument exec args 0 ;; lift (py_pow H x (VFloat half))
  else if FunctionType_eqb function CHAR_LENGTH then
    x <- exec_argument exec args 0 ;; lift (py_len x)
  else if FunctionType_eqb function NULL then
    x <- exec_argument exec args 0 ;;
    a <- lift (contains_eq H VNone x) ;;
    if a then ret (VBool true)
    else b <- lift (contains_eq H (VStr []) x) ;; ret (VBool b)
  else if FunctionType_eqb function IN then
    x <- exec_argument exec args 0 ;;
    in_arguments exec x (skipn 1 args)
  else ret VNone.

(** [node.exec()] applied to the keywords.  One unit of [fuel] is one level of
    evaluation; a group builds its tree anew from its text. *)
Fixpoint exec (fuel : nat) (i : nat) : M PassedData :=
  match fuel with
  | O => diverge
  | S fuel' =>
      n <- get i ;;
      match cls n with
      | CNode => raise (Exception (txt "Can not execute on an empty node"))
      | CStringNode => ret (VStr (str (value n)))
      | CNumberNode => lift (float H (value n))
      | CConstantNode =>
          if is_pi (value n) then ret (VFloat pi)
          else raise (Exception (str (value n) ++ txt " is not a defined constant"))
      | CVariableNode => ret (kwargs_get (value n))
      | COperatorNode operator _ => exec_operator (exec fuel') n operator
      | CComparatorNode comparator => exec_comparator (exec fuel') n comparator
      | CFunctionNode function => exec_function (exec fuel') n function
      | CTokenGroupNode =>
          match value n with
          | None => raise TypeError
          | Some v =>
              base <- new (fresh CNode None) ;;
              nodes <- extractNodes v ;;
              tree <- createExpressionTree (S (length nodes)) base nodes ;;
              exec fuel' (fst tree)
          end
      end
  end.

(** The driver at the end of the module, for any expression:
    tokenize, build from an empty base, evaluate. *)
Definition evaluate (fuel : nat) (expression : text) : M PassedData :=
  nodes <- extractNodes expression ;;
  base <- new (fresh CNode None) ;;
  tree <- createExpressionTree (S (length nodes)) base nodes ;;
  exec fuel (fst tree).

End Evaluator.

(** Tokenizing and building, the first two lines of the driver. *)
Definition build (expression : text) : M (nat * list nat) :=
  nodes <- extractNodes expression ;;
  base <- new (fresh CNode None) ;;
  createExpressionTree (S (length nodes)) base nodes.

(** A host in which every library call fails; it serves to run the
    engine on expressions that stay within numbers, strings and
    booleans. *)
Definition no_library : Host := {|
  legacy_factorial := true;
  float_of_text := fun _ => Raise (HostError 0);
  datetime_now := Raise (HostError 0);
  strptime := fun _ _ => Raise (HostError 0);
  make_delta := fun _ _ => Raise (HostError 0);
  obj_arith := fun _ _ _ => Raise (HostError 0);
  obj_compare := fun _ _ _ => Raise (HostError 0);
  obj_truth := fun _ => true;
  obj_abs := fun _ => Raise (HostError 0);
  float_mod := fun _ _ => Raise (HostError 0);
  float_floordiv := fun _ _ => Raise (HostError 0);
  float_pow := fun _ _ => Raise (HostError 0);
  str_mod := fun _ _ => Raise (HostError 0);
  math_log := fun _ _ => Raise (HostError 0);
  same_object := fun _ _ => false
|}.

(** ** Stores, references and renamings *)

(** A store is closed when every reference in it is to one of its
    objects; the stores of a running program are. *)
Definition below (k : nat) (o : option nat) : bool :=
  match o with
  | Some j => Nat.ltb j k
  | None => true
  end.

Definition bounded (k : nat) (n : Node) : bool :=
  below k (node_a n) && below k (node_b n)
  && forallb (fun j => Nat.ltb j k) (arguments n).

Definition closed (h : Store) : bool := forallb (bounded (length h)) h.

(** Two runs of one computation allocate at different positions when
    the second starts from a larger store.  [ren k d] relates their
    references: the first [k] objects are common, later ones are [d]
    further in the second run. *)
Definition ren (k d j : nat) : nat := if Nat.ltb j k then j else (j + d)%nat.

Definition ren_node (k d : nat) (n : Node) : Node :=
  mkNode (cls n) (value n) (option_map (ren k d) (node_a n))
         (option_map (ren k d) (node_b n)) (List.map (ren k d) (arguments n)).

Definition above (k : nat) (o : option nat) : bool :=
  match o with
  | Some j => Nat.leb k j
  | None => true
  end.

(** A node all of whose references are to objects past the first [k]. *)
Definition fresh_node (k : nat) (n : Node) : bool :=
  above k (node_a n) && above k (node_b n)
  && forallb (Nat.leb k) (arguments n).

(** [related k d h0 h1 h2]: both stores begin with the [k] objects of
    [h0], and the later objects of [h1], which refer to later objects
    only, are those of [h2] found [d] further, renamed. *)
Record related (k d : nat) (h0 h1 h2 : Store) : Prop := mkRelated {
  rel_old1 : firstn k h1 = h0;
  rel_old2 : firstn k h2 = h0;
  rel_length : length h2 = (length h1 + d)%nat;
  rel_fresh : forall j n, (k <= j)%nat -> h1 !! j = Some n ->
      fresh_node k n = true /\ h2 !! (j + d)%nat = Some (ren_node k d n)
}.

(** Related outcomes: the same exception, or related results. *)
Definition rout {A} (RA : A -> A -> Prop) (o1 o2 : outcome A) : Prop :=
  match o1, o2 with
  | Ok a, Ok b => RA a b
  | Raise e1, Raise e2 => e1 = e2
  | _, _ => False
  end.

(** [m2] simulates [m1]: from related stores, when [m1] returns or
    raises, so does [m2], with a related outcome and related stores. *)
Definition sim (k d : nat) (h0 : Store) {A} (RA : A -> A -> Prop)
    (m1 m2 : M A) : Prop :=
  forall h1 h2 o1 h1',
    related k d h0 h1 h2 ->
    m1 h1 = (o1, h1') ->
    o1 <> Diverge ->
    exists o2 h2',
      m2 h2 = (o2, h2') /\ related k d h0 h1' h2' /\ rout RA o1 o2.

(** References to objects created after the first [k]. *)
Definition fid (k d i1 i2 : nat) : Prop := (k <= i1)%nat /\ i2 = (i1 + d)%nat.

(** Optional references and lists of references to later objects. *)
Definition fopt (k d : nat) (a1 a2 : option nat) : Prop :=
  above k a1 = true /\ a2 = option_map (ren k d) a1.

Definition fids (k d : nat) (l1 l2 : list nat) : Prop :=
  Forall2 (fid k d) l1 l2.

(** Nodes read through a slot. *)
Definition rnode_opt (k d : nat) (r1 r2 : option Node) : Prop :=
  r2 = option_map (ren_node k d) r1.

(** Related results of the builder: the root and the tokens left. *)
Definition rtree (k d : nat) (r1 r2 : nat * list nat) : Prop :=
  fid k d (fst r1) (fst r2) /\ fids k d (snd r1) (snd r2).

(** The references a node holds. *)
Definition refs (n : Node) : list nat :=
  match node_a n with Some i => [i] | None => [] end
  ++ match node_b n with Some i => [i] | None => [] end
  ++ arguments n.

(** [keeps ids out m]: from a closed store that holds the objects [ids],
    [m] leaves a closed store, as large at least, that holds what its
    result refers to. *)
Definition keeps (ids : list nat) {A} (out : A -> list nat) (m : M A)
    : Prop :=
  forall (h : Store) o h',
    closed h = true ->
    Forall (fun i => (i < length h)%nat) ids ->
    m h = (o, h') ->
    closed h' = true /\ (length h <= length h')%nat
    /\ forall a, o = Ok a -> Forall (fun i => (i < length h')%nat) (out a).

(** What a result of the builder refers to. *)
Definition tree_refs (r : nat * list nat) : list nat := fst r :: snd r.

(** ** Slices *)

(** [covers vs s]: the texts [vs] occur in [s] in this order, one after
    the other, none empty, with arbitrary text between them. *)
Inductive covers : list text -> text -> Prop :=
| covers_nil (s : text) : covers [] s
| covers_cons (gap v : text) (vs : list text) (s : text) :
    v <> [] -> covers vs s -> covers (v :: vs) (gap ++ v ++ s).

(** ** Stores that grow *)

(** [extends h h']: every object of [h] is in [h'] at its place, with
    its class and its text. *)
Definition extends (h h' : Store) : Prop :=
  (length h <= length h')%nat
  /\ forall i n, h !! i = Some n ->
       exists n', h' !! i = Some n' /\ cls n' = cls n /\ value n' = value n.

Definition grows {A} (m : M A) : Prop :=
  forall (h : Store) o h', m h = (o, h') -> extends h h'.

(** [runs ids m]: from a closed store that holds the objects [ids],
    [m] returns or raises. *)
Definition runs (ids : list nat) {A} (m : M A) : Prop :=
  forall (h : Store),
    closed h = true ->
    Forall (fun i => (i < length h)%nat) ids ->
    fst (m h) <> Diverge.

(** The same host with a [math.factorial] that rejects floats, as
    from Python 3.10 on. *)
Definition strict_library : Host := {|
  legacy_factorial := false;
  float_of_text := float_of_text no_library;
  datetime_now := datetime_now no_library;
  strptime := strptime no_library;
  make_delta := make_delta no_library;
  obj_arith := obj_arith no_library;
  obj_compare := obj_compare no_library;
  obj_truth := obj_truth no_library;
  obj_abs := obj_abs no_library;
  float_mod := float_mod no_library;
  float_floordiv := float_floordiv no_library;
  float_pow := float_pow no_library;
  str_mod := str_mod no_library;
  math_log := math_log no_library;
  same_object := same_object no_library
|}.

(** * Properties *)

(** ** Unfolding lemmas *)

Lemma exec_S (H : Host) (kwargs : gmap text PassedData) f i h :
  exec H kwargs (S f) i h =
  match h !! i with
  | None => (Diverge, h)
  | Some n =>
      match cls n with
      | CNode => raise (Exception (txt "Can not execute on an empty node"))
      | CStringNode => ret (VStr (str (value n)))
      | CNumberNode => lift (float H (value n))
      | CConstantNode =>
          if is_pi (value n) then ret (VFloat pi)
          else raise (Exception (str (value n) ++ txt " is not a defined constant"))
      | CVariableNode => ret (kwargs_get kwargs (value n))
      | COperatorNode operator _ => exec_operator H (exec H kwargs f) n operator
      | CComparatorNode comparator =>
          exec_comparator H (exec H kwargs f) n comparator
      | CFunctionNode function =>
          exec_function H kwargs (exec H kwargs f) n function
      | CTokenGroupNode =>
          match value n with
          | None => raise TypeError
          | Some v =>
              base <- new (fresh CNode None) ;;
              nodes <- extractNodes v ;;
              tree <- createExpressionTree (S (length nodes)) base nodes ;;
              exec H kwargs f (fst tree)
          end
      end h
  end.
Proof. simpl. unfold bind, get. destruct (h !! i); reflexivity. Qed.

Lemma evaluate_build (H : Host) (kwargs : gmap text PassedData)
    fuel e h tree h' :
  build e h = (Ok tree, h') ->
  evaluate H kwargs fuel e h = exec H kwargs fuel (fst tree) h'.
Proof.
  unfold evaluate, build, bind. intros E.
  destruct (extractNodes e h) as [[nodes| |] h1]; try discriminate.
  destruct (new _ h1) as [[b| |] h2]; try discriminate.
  rewrite E. reflexivity.
Qed.

(** ** Precedence and grouping *)

(** C2: [2 + 3 * 4] builds as [2 + (3 * 4)] and evaluates to the float
    14, which is equal to the integer 14 and not to 20. *)
Theorem sum_product_precedence (H : Host) (kwargs : gmap text PassedData)
    (n : nat) :
  fst (evaluate H kwargs (S (S (S n))) (txt "2 + 3 * 4") [])
  = Ok (VFloat (flt 14))
  /\ value_eqb (VFloat (flt 14)) (VInt 14) = true
  /\ value_eqb (VFloat (flt 14)) (VInt 20) = false.
Proof. vm_compute. repeat split. Qed.

(** C1: [(2 + 3) * 4] does not evaluate to 20.  The group is stored as
    the left child of the empty base node, the base becomes the left
    operand of [*], and evaluating the empty base raises. *)
Theorem group_times_four_raises (H : Host) (kwargs : gmap text PassedData)
    (n : nat) :
  fst (evaluate H kwargs (S (S n)) (txt "(2 + 3) * 4") [])
  = Raise (Exception (txt "Can not execute on an empty node")).
Proof. vm_compute. reflexivity. Qed.

(** The same group on the right of an operator is evaluated. *)
Lemma four_times_group (H : Host) (kwargs : gmap text PassedData) (n : nat) :
  fst (evaluate H kwargs (S (S (S (S n)))) (txt "4 * (2 + 3)") [])
  = Ok (VFloat (flt 20)).
Proof. vm_compute. reflexivity. Qed.

(** ** Unary forms *)

(** C6: [-5] evaluates to the float -5; [+-5] is one operator token
    [+-], which no registry entry matches, so tokenization raises. *)
Theorem unary_forms (H : Host) (kwargs : gmap text PassedData) (n : nat) :
  fst (evaluate H kwargs (S (S n)) (txt "-5") []) = Ok (VFloat (flt (-5)))
  /\ fst (evaluate H kwargs (S (S n)) (txt "+-5") [])
     = Raise (Exception (txt "Invalid Operator: +-")).
Proof. vm_compute. split; reflexivity. Qed.

(** Neither does a lone unary plus reach [abs]: the builder gives [+] the
    empty base as left child, which is not [None]. *)
Lemma unary_plus_raises (H : Host) (kwargs : gmap text PassedData) (n : nat) :
  fst (evaluate H kwargs (S (S n)) (txt "+5") [])
  = Raise (Exception (txt "Can not execute on an empty node")).
Proof. vm_compute. reflexivity. Qed.

(** Where [math.factorial] takes the float 5.0 that the literal is
    parsed to, [5!] evaluates to the integer 120. *)
Lemma factorial_five (H : Host) (kwargs : gmap text PassedData) (n : nat) :
  legacy_factorial H = true ->
  fst (evaluate H kwargs (S (S n)) (txt "5!") []) = Ok (VInt 120).
Proof.
  intros L.
  erewrite evaluate_build by (vm_compute; reflexivity).
  rewrite exec_S. cbn [fst lookup list_lookup cls].
  unfold exec_operator.
  cbn [is_None node_a node_b andb OperatorType_eqb].
  unfold bind, exec_slot. rewrite exec_S.
  cbn [lookup list_lookup cls value lift].
  replace (float H (Some (txt "5"))) with (Ok (VFloat (flt 5)))
    by (vm_compute; reflexivity).
  unfold factorial. rewrite L. vm_compute. reflexivity.
Qed.

Lemma factorial_five_witness :
  legacy_factorial no_library = true
  /\ fst (evaluate no_library ∅ 2 (txt "5!") []) = Ok (VInt 120).
Proof. split; [reflexivity | apply (factorial_five no_library ∅ 0); reflexivity]. Defined.

(** Where [math.factorial] rejects floats the same expression raises. *)
Lemma factorial_five_strict (H : Host) (kwargs : gmap text PassedData)
    (n : nat) :
  legacy_factorial H = false ->
  fst (evaluate H kwargs (S (S n)) (txt "5!") []) = Raise TypeError.
Proof.
  intros L.
  erewrite evaluate_build by (vm_compute; reflexivity).
  rewrite exec_S. cbn [fst lookup list_lookup cls].
  unfold exec_operator.
  cbn [is_None node_a node_b andb OperatorType_eqb].
  unfold bind, exec_slot. rewrite exec_S.
  cbn [lookup list_lookup cls value lift].
  replace (float H (Some (txt "5"))) with (Ok (VFloat (flt 5)))
    by (vm_compute; reflexivity).
  unfold factorial. rewrite L. reflexivity.
Qed.

(** C8: [5!] builds [!] over the Number 5, which evaluates to the float
    5.0, and hands that float to [math.factorial]: the result is 120
    only where [math.factorial] accepts floats, and [TypeError] is
    raised where it does not, as on every Python from 3.10 on. *)
Theorem factorial_five_by_interpreter (H : Host)
    (kwargs : gmap text PassedData) (n : nat) :
  fst (evaluate H kwargs (S (S n)) (txt "5!") [])
  = (if legacy_factorial H then Ok (VInt 120) else Raise TypeError)
  /\ fst (evaluate strict_library kwargs (S (S n)) (txt "5!") [])
     = Raise TypeError.
Proof.
  split.
  - destruct (legacy_factorial H) eqn:L;
      [apply factorial_five | apply factorial_five_strict]; exact L.
  - apply factorial_five_strict. reflexivity.
Qed.

(** ** Variables *)

(** C7: an unbound variable evaluates to [None] and raises nothing;
    [None + 1.0] raises [TypeError]; and so does the expression
    [[x] + 1] built and evaluated where [x] is unbound. *)
Theorem unbound_variable (H : Host) (kwargs : gmap text PassedData) :
  (forall (name : text) (fuel i : nat) (n : Node) (h : Store),
      kwargs !! name = None ->
      h !! i = Some n -> cls n = CVariableNode -> value n = Some name ->
      exec H kwargs (S fuel) i h = (Ok VNone, h))
  /\ py_add H VNone (VFloat (flt 1)) = Raise TypeError
  /\ (kwargs !! txt "x" = None ->
      forall n : nat,
        fst (evaluate H kwargs (S (S n)) (txt "[x] + 1") [])
        = Raise TypeError).
Proof.
  split; [|split].
  - intros name fuel i n h E Hi Hc Hv.
    rewrite exec_S, Hi, Hc. unfold ret, kwargs_get.
    rewrite Hv, E. reflexivity.
  - reflexivity.
  - intros E n.
    erewrite evaluate_build by (vm_compute; reflexivity).
    rewrite exec_S. cbn [fst lookup list_lookup cls value node_a node_b].
    unfold exec_operator.
    cbn [is_None node_a node_b andb OperatorType_eqb].
    unfold binary, bind, exec_slot. rewrite !exec_S.
    cbn [lookup list_lookup cls value ret kwargs_get].
    change (txt "x") with [120%N] in E. rewrite E. reflexivity.
Qed.

Lemma unbound_variable_witness :
  exec no_library ∅ 1 0 [fresh CVariableNode (Some (txt "x"))]
  = (Ok VNone, [fresh CVariableNode (Some (txt "x"))])
  /\ fst (evaluate no_library ∅ 2 (txt "[x] + 1") []) = Raise TypeError.
Proof.
  destruct (unbound_variable no_library ∅) as [V [_ E]]. split.
  - eapply (V (txt "x")); reflexivity.
  - apply E. reflexivity.
Defined.

(** With a binding the same expression evaluates: [[x] + 1] is 5. *)
Lemma bound_variable (H : Host) (n : nat) :
  fst (evaluate H {[ txt "x" := VInt 4 ]} (S (S n)) (txt "[x] + 1") [])
  = Ok (VFloat (flt 5)).
Proof. vm_compute. reflexivity. Qed.

(** ** Comparators *)

(** The builder returns only when the token list is used up. *)
Lemma createExpressionTree_consumes fuel :
  forall base nodes h r h',
    createExpressionTree fuel base nodes h = (Ok r, h') -> snd r = [].
Proof.
  induction fuel as [|fuel IH]; intros base nodes h r h' E; [discriminate|].
  destruct nodes as [|node nodes]; [injection E as <- _; reflexivity|].
  cbn [createExpressionTree] in E. unfold bind in E.
  repeat match type of E with
  | (let (_, _) := ?m in _) = _ =>
      let o := fresh "o" in let s := fresh "s" in
      destruct m as [o s] eqn:?; destruct o; try discriminate
  | match ?m with (_, _) => _ end = _ =>
      let o := fresh "o" in let s := fresh "s" in
      destruct m as [o s] eqn:?; destruct o; try discriminate
  | (if ?c then _ else _) _ = _ => destruct c
  | createExpressionTree fuel _ _ _ = _ => exact (IH _ _ _ _ _ E)
  | raise _ _ = _ => discriminate
  end.
Qed.

(** What the builder returns when it pops a comparator is the tree it
    had before: the comparator gets both children and is then left
    unreferenced, because the branch neither returns it nor makes it
    the new [base]. *)
Lemma comparator_not_root fuel base node nodes h n r h' :
  h !! node = Some n ->
  is_type COMPARATOR n = true ->
  createExpressionTree (S (S fuel)) base (node :: nodes) h = (Ok r, h') ->
  fst r = base.
Proof.
  intros Hn Hc E.
  assert (Ho : is_type OPERATOR n = false).
  { unfold is_type in *. destruct (type n) as [[]|]; try discriminate; reflexivity. }
  remember (S fuel) as f1 eqn:Hf.
  cbn [createExpressionTree] in E.
  unfold bind at 1 in E. unfold get at 1 in E. rewrite Hn in E.
  unfold bind at 1 in E.
  destruct (get base h) as [[b| |] h1]; try discriminate.
  rewrite Ho, Hc in E. unfold bind at 1 in E.
  destruct (set_node_a node (Some base) h1) as [[u| |] h2]; try discriminate.
  unfold bind at 1 in E.
  match type of E with
  | (let (_, _) := ?m in _) = _ =>
      destruct m as [[r0| |] h3] eqn:E0; try discriminate
  | match ?m with (_, _) => _ end = _ =>
      destruct m as [[r0| |] h3] eqn:E0; try discriminate
  end.
  assert (snd r0 = []) as Hr0.
  { destruct nodes as [|next nodes'].
    - unfold bind in E0.
      destruct (new (fresh CNode None) h2) as [[e| |] h2']; try discriminate.
      exact (createExpressionTree_consumes _ _ _ _ _ _ E0).
    - exact (createExpressionTree_consumes _ _ _ _ _ _ E0). }
  unfold bind at 1 in E.
  destruct (set_node_b node (Some (fst r0)) h3) as [[u'| |] h4];
    try discriminate.
  rewrite Hr0, Hf in E. cbn in E. injection E as <- _. reflexivity.
Qed.

(** C3: on [1 < 2] the builder returns the number node [1] (object 0),
    not the comparator (object 1); the comparator holds both operands
    but nothing refers to it, and evaluation yields 1.0, not a truth
    value. *)
Theorem comparator_dropped (H : Host) (kwargs : gmap text PassedData)
    (n : nat) :
  build (txt "1 < 2") []
  = (Ok (0%nat, []),
     [ fresh CNumberNode (Some (txt "1"));
       mkNode (CComparatorNode LT) (Some (txt "<")) (Some 0%nat) (Some 2%nat) [];
       fresh CNumberNode (Some (txt "2"));
       fresh CNode None ])
  /\ fst (evaluate H kwargs (S n) (txt "1 < 2") []) = Ok (VFloat (flt 1)).
Proof. vm_compute. split; reflexivity. Qed.

(** C4: a [!=] node with both operands present evaluates the left
    operand, then the right one, and returns their not-equal
    comparison, the negation of [==] on values; the later branch that
    maps [NOT_EQUAL] to [>=] is never reached. *)
Theorem not_equal_is_not_equal (H : Host) (kwargs : gmap text PassedData)
    (fuel i a b : nat) (n : Node) (h : Store) :
  h !! i = Some n ->
  cls n = CComparatorNode NOT_EQUAL ->
  node_a n = Some a ->
  node_b n = Some b ->
  exec H kwargs (S fuel) i h
  = (x <- exec H kwargs fuel a ;;
     y <- exec H kwargs fuel b ;;
     r <- lift (py_ne H x y) ;;
     ret (VBool r)) h
  /\ (forall x y, is_obj x = false -> is_obj y = false ->
        py_ne H x y = Ok (negb (value_eqb x y))).
Proof.
  intros Hi Hc Ha Hb. split.
  - rewrite exec_S, Hi, Hc. unfold exec_comparator.
    rewrite Ha, Hb. reflexivity.
  - intros x y Hx Hy. unfold py_ne. rewrite Hx, Hy. reflexivity.
Qed.

(** [1 != 2] is true, where [1 >= 2] would be false. *)
Lemma not_equal_witness :
  fst (exec no_library ∅ 2 2
         [ fresh CNumberNode (Some (txt "1"));
           fresh CNumberNode (Some (txt "2"));
           mkNode (CComparatorNode NOT_EQUAL) (Some (txt "!="))
                  (Some 0%nat) (Some 1%nat) [] ])
  = Ok (VBool true).
Proof.
  match goal with
  | |- fst (exec _ _ _ _ ?st) = _ =>
      destruct (not_equal_is_not_equal no_library ∅ 1 2 0 1
                  (mkNode (CComparatorNode NOT_EQUAL) (Some (txt "!="))
                          (Some 0%nat) (Some 1%nat) []) st
                  eq_refl eq_refl eq_refl eq_refl) as [E _]
  end.
  rewrite E. reflexivity.
Defined.

(** ** Function arguments *)

(** C5 does not hold as stated: no exception leaves [in] called with
    one argument, it returns [False]. *)
Lemma in_single_argument_returns :
  fst (evaluate no_library ∅ 3 (txt "in(2)") []) = Ok (VBool false).
Proof. vm_compute. reflexivity. Qed.

(** C5, amended: the one check on the argument list is that it is not
    empty, made for every function but [today]; no function checks how
    many arguments it has.  With one argument, [in] evaluates it and
    returns [False], and [log] and [asDate] take base 10 and the format
    [%m/%d/%Y] for the second argument, which they use when it is
    there; the functions of one value evaluate their first argument and
    ignore the others; [sum] and [avg] of one argument add it to 0. *)
Theorem function_arguments_nonempty (H : Host)
    (kwargs : gmap text PassedData) (fuel i : nat) (n : Node)
    (function : FunctionType) (h : Store) :
  h !! i = Some n ->
  cls n = CFunctionNode function ->
  (function <> TODAY -> arguments n = [] ->
   exec H kwargs (S fuel) i h
   = (Raise (Exception (txt "Function argument is None")), h))
  /\ (forall a, function = IN -> arguments n = [a] ->
      exec H kwargs (S fuel) i h
      = (x <- exec H kwargs fuel a ;; ret (VBool false)) h)
  /\ (forall a, function = LOG -> arguments n = [a] ->
      exec H kwargs (S fuel) i h
      = (x <- exec H kwargs fuel a ;;
         lift (math_log H x (Some (VInt 10)))) h)
  /\ (forall a, function = AS_DATE -> arguments n = [a] ->
      exec H kwargs (S fuel) i h
      = (x <- exec H kwargs fuel a ;;
         lift (strptime H x (VStr (txt "%m/%d/%Y")))) h)
  /\ (forall a b rest, function = LOG -> arguments n = a :: b :: rest ->
      exec H kwargs (S fuel) i h
      = (x <- exec H kwargs fuel a ;;
         y <- exec H kwargs fuel b ;;
         lift (math_log H x (Some y))) h)
  /\ (forall a b rest, function = AS_DATE -> arguments n = a :: b :: rest ->
      exec H kwargs (S fuel) i h
      = (x <- exec H kwargs fuel a ;;
         y <- exec H kwargs fuel b ;;
         lift (strptime H x y)) h)
  /\ (forall a rest, is_delta function = true -> arguments n = a :: rest ->
      exec H kwargs (S fuel) i h
      = (x <- exec H kwargs fuel a ;; lift (make_delta H function x)) h)
  /\ (forall a rest, function = LOG10 -> arguments n = a :: rest ->
      exec H kwargs (S fuel) i h
      = (x <- exec H kwargs fuel a ;;
         lift (math_log H x (Some (VInt 10)))) h)
  /\ (forall a rest, function = NATURAL_LOG -> arguments n = a :: rest ->
      exec H kwargs (S fuel) i h
      = (x <- exec H kwargs fuel a ;; lift (math_log H x None)) h)
  /\ (forall a rest, function = SQUARE_ROOT -> arguments n = a :: rest ->
      exec H kwargs (S fuel) i h
      = (x <- exec H kwargs fuel a ;; lift (py_pow H x (VFloat half))) h)
  /\ (forall a rest, function = CHAR_LENGTH -> arguments n = a :: rest ->
      exec H kwargs (S fuel) i h
      = (x <- exec H kwargs fuel a ;; lift (py_len x)) h)
  /\ (forall a rest, function = NULL -> arguments n = a :: rest ->
      exec H kwargs (S fuel) i h
      = (x <- exec H kwargs fuel a ;;
         p <- lift (contains_eq H VNone x) ;;
         if p then ret (VBool true)
         else q <- lift (contains_eq H (VStr []) x) ;; ret (VBool q)) h)
  /\ (forall a, function = SUM -> arguments n = [a] ->
      exec H kwargs (S fuel) i h
      = (x <- exec H kwargs fuel a ;; lift (py_add H (VInt 0) x)) h)
  /\ (forall a, function = AVG -> arguments n = [a] ->
      exec H kwargs (S fuel) i h
      = (x <- exec H kwargs fuel a ;;
         s <- lift (py_add H (VInt 0) x) ;;
         lift (py_truediv H s (VInt 1))) h).
Proof.
  intros Hi Hc. rewrite exec_S, Hi, Hc. unfold exec_function.
  repeat split.
  - intros Hf Ha. rewrite Ha. destruct function; try reflexivity.
    contradiction.
  - intros a -> Ha. rewrite Ha. reflexivity.
  - intros a -> Ha. rewrite Ha. cbn.
    unfold bind. destruct (exec H kwargs fuel a h) as [[x| |] h1]; reflexivity.
  - intros a -> Ha. rewrite Ha. cbn.
    unfold bind. destruct (exec H kwargs fuel a h) as [[x| |] h1]; reflexivity.
  - intros a b rest -> Ha. rewrite Ha. reflexivity.
  - intros a b rest -> Ha. rewrite Ha. reflexivity.
  - intros a rest Hd Ha. rewrite Ha.
    destruct function; try discriminate; reflexivity.
  - intros a rest -> Ha. rewrite Ha. reflexivity.
  - intros a rest -> Ha. rewrite Ha. reflexivity.
  - intros a rest -> Ha. rewrite Ha. reflexivity.
  - intros a rest -> Ha. rewrite Ha. reflexivity.
  - intros a rest -> Ha. rewrite Ha. reflexivity.
  - intros a -> Ha. rewrite Ha. cbn.
    unfold bind. destruct (exec H kwargs fuel a h) as [[x| |] h1];
      try reflexivity.
    unfold lift. destruct (py_add H (VInt 0) x); reflexivity.
  - intros a -> Ha. rewrite Ha. cbn.
    unfold bind. destruct (exec H kwargs fuel a h) as [[x| |] h1];
      try reflexivity.
    unfold lift. destruct (py_add H (VInt 0) x); reflexivity.
Qed.

Lemma function_arguments_witness :
  exec no_library ∅ 1 0 [fresh (CFunctionNode IN) (Some (txt "in"))]
  = (Raise (Exception (txt "Function argument is None")),
     [fresh (CFunctionNode IN) (Some (txt "in"))])
  /\ fst (exec no_library ∅ 3 1
            [ fresh CTokenGroupNode (Some (txt "2"));
              mkNode (CFunctionNode IN) (Some (txt "in")) None None [0%nat] ])
     = Ok (VBool false).
Proof.
  split.
  - apply (function_arguments_nonempty no_library ∅ 0 0
             (fresh (CFunctionNode IN) (Some (txt "in"))) IN
             [fresh (CFunctionNode IN) (Some (txt "in"))] eq_refl eq_refl);
      [discriminate | reflexivity].
  - match goal with
    | |- fst (exec _ _ _ _ ?st) = _ =>
        destruct (function_arguments_nonempty no_library ∅ 2 1
                    (mkNode (CFunctionNode IN) (Some (txt "in")) None None
                            [0%nat]) IN st eq_refl eq_refl) as [_ [E _]]
    end.
    rewrite (E 0%nat eq_refl eq_refl). reflexivity.
Defined.

(** ** Group tokens *)

Lemma run_length_split (c : N) (s : text) :
  s = repeat c (run_length (N.eqb c) s) ++ skipn (run_length (N.eqb c) s) s.
Proof.
  induction s as [|a s IH]; [reflexivity|]. cbn.
  destruct (N.eqb c a) eqn:E; [|reflexivity].
  apply N.eqb_eq in E as <-. cbn. f_equal. exact IH.
Qed.

Lemma run_length_skipped (c : N) (s : text) :
  starts_with c (skipn (run_length (N.eqb c) s) s) = false.
Proof.
  induction s as [|a s IH]; [reflexivity|]. cbn.
  destruct (N.eqb c a) eqn:E; [exact IH|]. cbn. exact E.
Qed.

Lemma starts_with_app (c : N) (w s : text) :
  starts_with c (w ++ s) = false -> starts_with c w = false.
Proof. destruct w; [reflexivity|]. cbn. auto. Qed.

(** What [strip_end] with [all = true] removes: the whole run of [c]
    that ends the text, or that precedes its final newline. *)
Lemma strip_end_all (c : N) (s : text) :
  exists (m : nat) (w tl : text),
    (tl = [] \/ tl = [NEWLINE])
    /\ s = w ++ repeat c m ++ tl
    /\ strip_end c true s = w ++ tl
    /\ starts_with c (rev w) = false.
Proof.
  unfold strip_end. destruct (rev s) as [|d r] eqn:E.
  - exists O, [], []. apply (f_equal (@rev N)) in E.
    rewrite rev_involutive in E. subst s. cbn. auto.
  - assert (Hs : s = rev r ++ [d]).
    { apply (f_equal (@rev N)) in E. rewrite rev_involutive in E.
      exact E. }
    destruct (N.eqb c d) eqn:Ec.
    + exists (run_length (N.eqb c) (d :: r)),
        (rev (skipn (run_length (N.eqb c) (d :: r)) (d :: r))), [].
      repeat split; auto.
      * rewrite app_nil_r, <- (rev_repeat _ c), <- rev_app_distr,
          <- run_length_split. exact Hs.
      * symmetry. apply app_nil_r.
      * rewrite rev_involutive. apply run_length_skipped.
    + destruct (N.eqb d NEWLINE) eqn:En.
      * apply N.eqb_eq in En. subst d.
        exists (run_length (N.eqb c) r),
          (rev (skipn (run_length (N.eqb c) r) r)), [NEWLINE].
        repeat split; auto.
        -- rewrite app_assoc, <- (rev_repeat _ c), <- rev_app_distr,
             <- run_length_split. exact Hs.
        -- rewrite rev_involutive. apply run_length_skipped.
      * exists O, s, []. cbn. rewrite app_nil_r. repeat split; auto.
        rewrite E. cbn. exact Ec.
Qed.

(** C10: the substitution applied to a group token removes the whole run
    of [(] at its start and the whole run of [)] at its end, not one
    enclosing pair; so the balanced group [((1+2)*(3+4))], one token for
    the tokenizer, is stored with the unbalanced text [1+2)*(3+4]. *)
Theorem group_parentheses_stripped :
  (forall v : text,
      exists (n m : nat) (w tl : text),
        (tl = [] \/ tl = [NEWLINE])
        /\ v = repeat LPAREN n ++ w ++ repeat RPAREN m ++ tl
        /\ sub_parens v = w ++ tl
        /\ starts_with LPAREN w = false
        /\ starts_with RPAREN (rev w) = false)
  /\ finditer 0 None (txt "((1+2)*(3+4))")
     = [(TOKEN_GROUP, txt "((1+2)*(3+4))")]
  /\ sub_parens (txt "((1+2)*(3+4))") = txt "1+2)*(3+4"
  /\ extractNodes (txt "((1+2)*(3+4))") []
     = (Ok [0%nat], [fresh CTokenGroupNode (Some (txt "1+2)*(3+4"))]).
Proof.
  split; [|repeat split].
  intros v. unfold sub_parens.
  set (s := skipn (run_length (N.eqb LPAREN) v) v).
  destruct (strip_end_all RPAREN s) as (m & w & tl & Htl & Hs & Hr & Hw).
  exists (run_length (N.eqb LPAREN) v), m, w, tl.
  repeat split; auto.
  - rewrite <- Hs. apply run_length_split.
  - apply (starts_with_app _ _ (repeat RPAREN m ++ tl)).
    rewrite <- Hs. apply run_length_skipped.
Qed.

(** ** Evaluation leaves the tree alone *)

Local Open Scope nat_scope.

Lemma ren_above k d j : k <= j -> ren k d j = j + d.
Proof. unfold ren. intros Hj. destruct (Nat.ltb_spec j k); lia. Qed.

Lemma ren_below k d j : j < k -> ren k d j = j.
Proof. unfold ren. intros Hj. destruct (Nat.ltb_spec j k); lia. Qed.

Lemma ren_injective k d i j : ren k d i = ren k d j -> i = j.
Proof.
  unfold ren. destruct (Nat.ltb_spec i k), (Nat.ltb_spec j k); lia.
Qed.

Lemma option_map_ren_below k d o :
  below k o = true -> option_map (ren k d) o = o.
Proof.
  destruct o as [j|]; [|reflexivity]. cbn. intros Hj.
  apply Nat.ltb_lt in Hj. rewrite ren_below; auto.
Qed.

Lemma map_ren_below k d l :
  forallb (fun j => Nat.ltb j k) l = true -> List.map (ren k d) l = l.
Proof.
  induction l as [|j l IH]; [reflexivity|]. cbn.
  intros [Hj Hl]%andb_prop. apply Nat.ltb_lt in Hj.
  rewrite ren_below, IH; auto.
Qed.

Lemma ren_node_bounded k d n : bounded k n = true -> ren_node k d n = n.
Proof.
  unfold bounded, ren_node. intros [[Ha Hb]%andb_prop Hl]%andb_prop.
  rewrite !option_map_ren_below, map_ren_below by assumption.
  destruct n; reflexivity.
Qed.

Lemma option_map_ren_above k d o :
  above k o = true -> option_map (ren k d) o = option_map (fun j => j + d) o.
Proof.
  destruct o as [j|]; [|reflexivity]. cbn. intros Hj.
  apply Nat.leb_le in Hj. rewrite ren_above; auto.
Qed.

Lemma closed_lookup h j n :
  closed h = true -> h !! j = Some n -> bounded (length h) n = true.
Proof.
  unfold closed. rewrite forallb_forall. intros Hc Hj.
  apply Hc. apply list_elem_of_In. eapply list_elem_of_lookup_2. exact Hj.
Qed.

Section Simulation.
Variables (k d : nat) (h0 : Store).
Hypothesis h0_length : length h0 = k.
Hypothesis h0_closed : closed h0 = true.

Lemma related_length h1 h2 : related k d h0 h1 h2 -> k <= length h1.
Proof.
  intros [E _ _ _]. rewrite <- h0_length, <- E, length_take. lia.
Qed.

(** Every object of the first store is found, renamed, in the second. *)
Lemma related_lookup h1 h2 j n :
  related k d h0 h1 h2 ->
  h1 !! j = Some n ->
  h2 !! ren k d j = Some (ren_node k d n)
  /\ (k <= j -> fresh_node k n = true).
Proof.
  intros Hr Hj. destruct (Nat.lt_ge_cases j k) as [Hlt|Hge].
  - rewrite ren_below by assumption.
    assert (h0 !! j = Some n) as Hn.
    { rewrite <- (rel_old1 _ _ _ _ _ Hr), lookup_take_lt; auto. }
    split; [|lia].
    rewrite ren_node_bounded.
    + rewrite <- (lookup_take_lt h2 k) by assumption.
      rewrite (rel_old2 _ _ _ _ _ Hr). exact Hn.
    + rewrite <- h0_length. eapply closed_lookup; eauto.
  - rewrite ren_above by assumption.
    destruct (rel_fresh _ _ _ _ _ Hr j n Hge Hj) as [Hf Hl]. auto.
Qed.

Lemma sim_ret {A} (RA : A -> A -> Prop) a b :
  RA a b -> sim k d h0 RA (ret a) (ret b).
Proof.
  intros Hab h1 h2 o1 h1' Hr [= <- <-] _. exists (Ok b), h2. auto.
Qed.

Lemma sim_raise {A} (RA : A -> A -> Prop) e :
  sim k d h0 RA (raise e) (raise e).
Proof.
  intros h1 h2 o1 h1' Hr [= <- <-] _. exists (Raise e), h2.
  split; [reflexivity|]. split; [assumption|reflexivity].
Qed.

Lemma sim_lift {A} (o : outcome A) : sim k d h0 eq (lift o) (lift o).
Proof.
  intros h1 h2 o1 h1' Hr [= <- <-] Hd. exists o, h2.
  split; [reflexivity|]. split; [assumption|].
  destruct o; cbn; auto.
Qed.

Lemma sim_bind {A B} (RA : A -> A -> Prop) (RB : B -> B -> Prop)
    (m1 m2 : M A) (f1 f2 : A -> M B) :
  sim k d h0 RA m1 m2 ->
  (forall a b, RA a b -> sim k d h0 RB (f1 a) (f2 b)) ->
  sim k d h0 RB (bind m1 f1) (bind m2 f2).
Proof.
  intros Hm Hf h1 h2 o1 h1' Hr E Hd. unfold bind in *.
  destruct (m1 h1) as [[a| e |] h1m] eqn:E1.
  - destruct (Hm _ _ _ _ Hr E1) as (o2 & h2m & E2 & Hr' & Ho);
      [discriminate|].
    destruct o2 as [b| |]; cbn in Ho; try contradiction.
    rewrite E2. eapply Hf; eauto.
  - destruct (Hm _ _ _ _ Hr E1) as (o2 & h2m & E2 & Hr' & Ho);
      [discriminate|].
    destruct o2 as [b|e2|]; cbn in Ho; try contradiction. subst e2.
    injection E as <- <-. rewrite E2. exists (Raise e), h2m.
    split; [reflexivity|]. split; [assumption|reflexivity].
  - injection E as <- <-. contradiction.
Qed.

Lemma sim_weaken {A} (RA RB : A -> A -> Prop) (m1 m2 : M A) :
  (forall a b, RA a b -> RB a b) ->
  sim k d h0 RA m1 m2 -> sim k d h0 RB m1 m2.
Proof.
  intros Hab Hm h1 h2 o1 h1' Hr E Hd.
  destruct (Hm _ _ _ _ Hr E Hd) as (o2 & h2' & E2 & Hr' & Ho).
  exists o2, h2'. split; [assumption|]. split; [assumption|].
  destruct o1, o2; cbn in *; auto.
Qed.

(** Reading an object. *)
Lemma sim_get j :
  sim k d h0
    (fun n1 n2 => n2 = ren_node k d n1 /\ (k <= j -> fresh_node k n1 = true))
    (get j) (get (ren k d j)).
Proof.
  intros h1 h2 o1 h1' Hr E Hd. unfold get in *.
  destruct (h1 !! j) as [n|] eqn:Hj.
  - injection E as <- <-.
    destruct (related_lookup _ _ _ _ Hr Hj) as [Hl Hf].
    rewrite Hl. exists (Ok (ren_node k d n)), h2. cbn. auto.
  - injection E as <- <-. contradiction.
Qed.

(** Creating an object. *)
Lemma sim_new n :
  fresh_node k n = true ->
  sim k d h0 (fid k d) (new n) (new (ren_node k d n)).
Proof.
  intros Hn h1 h2 o1 h1' Hr [= <- <-] _. unfold new.
  exists (Ok (length h2)), (h2 ++ [ren_node k d n]).
  pose proof (related_length _ _ Hr) as Hk.
  destruct Hr as [E1 E2 El Hf].
  split; [reflexivity|]. split.
  - constructor.
    + rewrite take_app_le; auto.
    + rewrite take_app_le; auto. lia.
    + rewrite !length_app. cbn. lia.
    + intros j m Hj Hl.
      apply lookup_app_Some in Hl as [Hl|[Hge Hl]].
      * destruct (Hf j m Hj Hl) as [Hm Hl2]. split; auto.
        apply lookup_app_l_Some. exact Hl2.
      * destruct (j - length h1) as [|x] eqn:Ex; [|destruct x; discriminate].
        injection Hl as <-. split; auto.
        assert (j = length h1) as -> by lia.
        rewrite <- El, lookup_app_r by lia.
        rewrite Nat.sub_diag. reflexivity.
  - cbn. unfold fid. lia.
Qed.

(** Writing an attribute of an object created after the first [k]. *)
Lemma sim_update j (f1 f2 : Node -> Node) :
  k <= j ->
  (forall n, fresh_node k n = true -> fresh_node k (f1 n) = true) ->
  (forall n, fresh_node k n = true ->
             ren_node k d (f1 n) = f2 (ren_node k d n)) ->
  sim k d h0 eq (update j f1) (update (j + d) f2).
Proof.
  intros Hj Hfresh Hcomm h1 h2 o1 h1' Hr E Hd. unfold update in *.
  destruct (h1 !! j) as [n|] eqn:Hn.
  - injection E as <- <-.
    destruct (rel_fresh _ _ _ _ _ Hr j n Hj Hn) as [Hf Hl]. rewrite Hl.
    exists (Ok tt), (<[j + d := f2 (ren_node k d n)]> h2).
    split; [reflexivity|]. split; [|reflexivity].
    destruct Hr as [E1 E2 El Hfr]. constructor.
    + rewrite take_insert_ge; auto.
    + rewrite take_insert_ge; auto. lia.
    + rewrite !length_insert. exact El.
    + intros i m Hi Hm. destruct (decide (i = j)) as [->|Hne].
      * rewrite list_lookup_insert_eq in Hm by (eapply lookup_lt_Some; eauto).
        injection Hm as <-. split; auto.
        rewrite list_lookup_insert_eq by (eapply lookup_lt_Some; eauto).
        rewrite Hcomm; auto.
      * rewrite list_lookup_insert_ne in Hm by auto.
        rewrite list_lookup_insert_ne by lia. auto.
  - injection E as <- <-. contradiction.
Qed.

Lemma fid_ren i1 i2 : fid k d i1 i2 -> i2 = ren k d i1.
Proof. intros [Hi ->]. rewrite ren_above; auto. Qed.

Lemma fids_map l1 l2 :
  (fids k d) l1 l2 -> forallb (Nat.leb k) l1 = true /\ l2 = List.map (ren k d) l1.
Proof.
  induction 1 as [|i1 i2 l1 l2 Hi Hl [IH1 IH2]]; [auto|]. cbn.
  rewrite IH1, <- IH2, <- (fid_ren _ _ Hi). destruct Hi as [Hi _].
  apply Nat.leb_le in Hi. rewrite Hi. auto.
Qed.

Lemma fresh_node_parts n :
  fresh_node k n = true ->
  above k (node_a n) = true /\ above k (node_b n) = true
  /\ forallb (Nat.leb k) (arguments n) = true.
Proof.
  unfold fresh_node. intros [[Ha Hb]%andb_prop Hl]%andb_prop. auto.
Qed.

Lemma fresh_node_intro c v a b l :
  above k a = true -> above k b = true -> forallb (Nat.leb k) l = true ->
  fresh_node k (mkNode c v a b l) = true.
Proof. unfold fresh_node. cbn. intros -> -> ->. reflexivity. Qed.

Lemma sim_set_node_a i1 i2 a1 a2 :
  fid k d i1 i2 -> (fopt k d) a1 a2 ->
  sim k d h0 eq (set_node_a i1 a1) (set_node_a i2 a2).
Proof.
  intros [Hi ->] [Ha ->]. apply sim_update; auto.
  intros n (_ & Hb & Hl)%fresh_node_parts. apply fresh_node_intro; auto.
Qed.

Lemma sim_set_node_b i1 i2 b1 b2 :
  fid k d i1 i2 -> (fopt k d) b1 b2 ->
  sim k d h0 eq (set_node_b i1 b1) (set_node_b i2 b2).
Proof.
  intros [Hi ->] [Hb ->]. apply sim_update; auto.
  intros n (Ha & _ & Hl)%fresh_node_parts. apply fresh_node_intro; auto.
Qed.

Lemma sim_set_arguments i1 i2 l1 l2 :
  fid k d i1 i2 -> (fids k d) l1 l2 ->
  sim k d h0 eq (set_arguments i1 l1) (set_arguments i2 l2).
Proof.
  intros [Hi ->] [Hl ->]%fids_map. apply sim_update; auto.
  intros n (Ha & Hb & _)%fresh_node_parts. apply fresh_node_intro; auto.
Qed.

Lemma fopt_Some i1 i2 : fid k d i1 i2 -> (fopt k d) (Some i1) (Some i2).
Proof.
  intros Hi. rewrite (fid_ren _ _ Hi). destruct Hi as [Hi _].
  split; [|reflexivity]. cbn. apply Nat.leb_le. exact Hi.
Qed.

(** Token construction allocates objects without references. *)
Lemma sim_new_fresh c v :
  sim k d h0 (fid k d) (new (fresh c v)) (new (fresh c v)).
Proof. apply (sim_new (fresh c v)). reflexivity. Qed.

Lemma sim_createToken t v :
  sim k d h0 (fid k d) (createToken t v) (createToken t v).
Proof.
  destruct t; unfold createToken; try apply sim_new_fresh.
  - destruct (operatorMap v), (operatorWeightMap v);
      try apply sim_new_fresh; apply sim_raise.
  - destruct (comparatorMap v); [apply sim_new_fresh | apply sim_raise].
  - destruct (functionMap v); [apply sim_new_fresh | apply sim_raise].
Qed.

Lemma sim_cons (m1 m2 : M nat) (r1 r2 : M (list nat)) :
  sim k d h0 (fid k d) m1 m2 ->
  sim k d h0 (fids k d) r1 r2 ->
  sim k d h0 (fids k d) (i <- m1 ;; l <- r1 ;; ret (i :: l))
                  (i <- m2 ;; l <- r2 ;; ret (i :: l)).
Proof.
  intros Hm Hr. eapply sim_bind; [exact Hm|]. intros i1 i2 Hi.
  eapply sim_bind; [exact Hr|]. intros l1 l2 Hl.
  apply sim_ret. constructor; assumption.
Qed.

Lemma sim_make_nodes ms : sim k d h0 (fids k d) (make_nodes ms) (make_nodes ms).
Proof.
  induction ms as [|[t v] ms IH]; [apply sim_ret; constructor|].
  cbn [make_nodes].
  destruct t; try (apply sim_cons; [apply sim_createToken | exact IH]).
  destruct (sub_parens v);
    [exact IH | apply sim_cons; [apply sim_createToken | exact IH]].
Qed.

Lemma sim_extractNodes e :
  sim k d h0 (fids k d) (extractNodes e) (extractNodes e).
Proof. apply sim_make_nodes. Qed.

Lemma sim_new_groups vs : sim k d h0 (fids k d) (new_groups vs) (new_groups vs).
Proof.
  induction vs as [|v vs IH]; [apply sim_ret; constructor|].
  cbn [new_groups]. apply sim_cons; [apply sim_new_fresh | exact IH].
Qed.

Lemma sim_split n : sim k d h0 (fids k d) (split n) (split (ren_node k d n)).
Proof.
  unfold split. cbn [value ren_node].
  destruct (value n); [apply sim_new_groups | apply sim_raise].
Qed.

Lemma sim_get_opt o :
  sim k d h0 (rnode_opt k d) (get_opt o) (get_opt (option_map (ren k d) o)).
Proof.
  destruct o as [i|]; cbn; [|apply sim_ret; reflexivity].
  eapply sim_bind; [apply sim_get|]. intros n1 n2 [-> _].
  apply sim_ret. reflexivity.
Qed.

Lemma is_type_ren t n : is_type t (ren_node k d n) = is_type t n.
Proof. reflexivity. Qed.

Lemma Some_is_type_ren t r :
  Some_is_type t (option_map (ren_node k d) r) = Some_is_type t r.
Proof. destruct r; reflexivity. Qed.

Lemma is_None_map {A B} (f : A -> B) o : is_None (option_map f o) = is_None o.
Proof. destruct o; reflexivity. Qed.

Lemma node_weight_ren n : node_weight (ren_node k d n) = node_weight n.
Proof. reflexivity. Qed.

Lemma sim_get_fresh i1 i2 :
  fid k d i1 i2 ->
  sim k d h0 (fun n1 n2 => n2 = ren_node k d n1 /\ fresh_node k n1 = true)
    (get i1) (get i2).
Proof.
  intros Hi. rewrite (fid_ren _ _ Hi). destruct Hi as [Hi _].
  eapply sim_weaken; [|apply sim_get]. cbn. intros n1 n2 [-> Hf]. auto.
Qed.

Lemma fid_above i : above k (Some i) = true -> fid k d i (ren k d i).
Proof.
  cbn. intros Hi%Nat.leb_le. split; [exact Hi | apply ren_above; exact Hi].
Qed.

Lemma fopt_slot o : above k o = true -> (fopt k d) o (option_map (ren k d) o).
Proof. intros Ho. split; auto. Qed.

(** The group branch of the builder. *)
Lemma sim_attach_group base1 base2 node1 node2 :
  fid k d base1 base2 -> fid k d node1 node2 ->
  sim k d h0 eq (attach_group base1 node1) (attach_group base2 node2).
Proof.
  intros Hbase Hnode. unfold attach_group.
  eapply sim_bind; [apply sim_get_fresh; exact Hbase|].
  intros b ? [-> Hb]. apply fresh_node_parts in Hb as (Ha & Hb & _).
  eapply sim_bind; [apply sim_get_fresh; exact Hnode|].
  intros n ? [-> _]. cbn [node_a node_b ren_node].
  eapply sim_bind; [apply sim_get_opt|]. intros r ? ->.
  rewrite Some_is_type_ren. destruct (Some_is_type FUNCTION r).
  { eapply sim_bind; [apply sim_split|]. intros l1 l2 Hl.
    destruct (node_b b) as [i|]; cbn [option_map].
    - apply sim_set_arguments; [apply fid_above; exact Hb | exact Hl].
    - apply sim_ret. reflexivity. }
  eapply sim_bind; [apply sim_get_opt|]. intros r' ? ->.
  rewrite Some_is_type_ren. destruct (Some_is_type FUNCTION r').
  { eapply sim_bind; [apply sim_split|]. intros l1 l2 Hl.
    destruct (node_a b) as [i|]; cbn [option_map].
    - apply sim_set_arguments; [apply fid_above; exact Ha | exact Hl].
    - apply sim_ret. reflexivity. }
  rewrite is_type_ren. destruct (is_type FUNCTION b).
  { eapply sim_bind; [apply sim_split|]. intros l1 l2 Hl.
    apply sim_set_arguments; assumption. }
  rewrite !is_None_map.
  destruct (is_None (node_a b)).
  { apply sim_set_node_a; [assumption | apply fopt_Some; assumption]. }
  destruct (is_None (node_b b)).
  { apply sim_set_node_b; [assumption | apply fopt_Some; assumption]. }
  apply sim_raise.
Qed.

Lemma sim_createExpressionTree fuel :
  forall base1 base2 nodes1 nodes2,
    fid k d base1 base2 -> (fids k d) nodes1 nodes2 ->
    sim k d h0 (rtree k d) (createExpressionTree fuel base1 nodes1)
                     (createExpressionTree fuel base2 nodes2).
Proof.
  induction fuel as [|fuel IH]; intros base1 base2 nodes1 nodes2 Hbase Hnodes.
  { intros h1 h2 o1 h1' _ [= <- <-] Hd. contradiction. }
  destruct Hnodes as [|node1 node2 nodes1 nodes2 Hnode Hnodes].
  { apply sim_ret. split; [exact Hbase | constructor]. }
  cbn [createExpressionTree].
  eapply sim_bind; [apply sim_get_fresh; exact Hnode|].
  intros n ? [-> _].
  eapply sim_bind; [apply sim_get_fresh; exact Hbase|].
  intros b ? [-> Hb]. apply fresh_node_parts in Hb as (Ha & Hb & _).
  rewrite !is_type_ren, !node_weight_ren.
  cbn [node_a node_b value ren_node]. rewrite !is_None_map.
  destruct (is_type OPERATOR n).
  { destruct (is_type OPERATOR b && (node_weight b <? node_weight n)%Z).
    - eapply sim_bind;
        [apply sim_set_node_a; [exact Hnode | apply fopt_slot; exact Hb]|].
      intros _ _ _.
      eapply sim_bind; [apply IH; assumption|]. intros r1 r2 [Hr Hl].
      eapply sim_bind;
        [apply sim_set_node_b; [exact Hbase | apply fopt_Some; exact Hr]|].
      intros _ _ _. apply IH; assumption.
    - eapply sim_bind;
        [apply sim_set_node_a; [exact Hnode | apply fopt_Some; exact Hbase]|].
      intros _ _ _. apply IH; assumption. }
  destruct (is_type COMPARATOR n).
  { eapply sim_bind;
      [apply sim_set_node_a; [exact Hnode | apply fopt_Some; exact Hbase]|].
    intros _ _ _.
    eapply sim_bind.
    - destruct Hnodes as [|next1 next2 rest1 rest2 Hnext Hrest].
      + eapply sim_bind; [apply sim_new_fresh|]. intros e1 e2 He.
        apply IH; [exact He | constructor].
      + apply IH; assumption.
    - intros r1 r2 [Hr Hl].
      eapply sim_bind;
        [apply sim_set_node_b; [exact Hnode | apply fopt_Some; exact Hr]|].
      intros _ _ _. apply IH; assumption. }
  destruct (is_type TOKEN_GROUP n).
  { eapply sim_bind; [apply sim_attach_group; assumption|].
    intros _ _ _. apply IH; assumption. }
  destruct (is_None (value b)).
  { apply IH; assumption. }
  destruct (is_None (node_a b)).
  { eapply sim_bind;
      [apply sim_set_node_a; [exact Hbase | apply fopt_Some; exact Hnode]|].
    intros _ _ _. apply IH; assumption. }
  destruct (is_None (node_b b)).
  { eapply sim_bind;
      [apply sim_set_node_b; [exact Hbase | apply fopt_Some; exact Hnode]|].
    intros _ _ _. apply IH; assumption. }
  apply sim_raise.
Qed.

Lemma lookup_map {A B} (f : A -> B) (l : list A) (i : nat) :
  List.map f l !! i = option_map f (l !! i).
Proof.
  revert i. induction l as [|a l IH]; intros [|i]; cbn; auto.
Qed.

(** *** The evaluator *)

Variable H : Host.
Variable kwargs : gmap text PassedData.

Section Nodes.
(** Two evaluators of children that simulate each other. *)
Variables e1 e2 : nat -> M PassedData.
Hypothesis sim_e : forall i, sim k d h0 eq (e1 i) (e2 (ren k d i)).

Lemma sim_exec_slot o :
  sim k d h0 eq (exec_slot e1 o) (exec_slot e2 (option_map (ren k d) o)).
Proof. destruct o; cbn; [apply sim_e | apply sim_raise]. Qed.

Lemma sim_binary op a b :
  sim k d h0 eq (binary e1 op a b)
    (binary e2 op (option_map (ren k d) a) (option_map (ren k d) b)).
Proof.
  unfold binary.
  eapply sim_bind; [apply sim_exec_slot|]. intros x ? <-.
  eapply sim_bind; [apply sim_exec_slot|]. intros y ? <-.
  apply sim_lift.
Qed.

Lemma sim_compare op a b :
  sim k d h0 eq (compare e1 op a b)
    (compare e2 op (option_map (ren k d) a) (option_map (ren k d) b)).
Proof.
  unfold compare.
  eapply sim_bind; [apply sim_exec_slot|]. intros x ? <-.
  eapply sim_bind; [apply sim_exec_slot|]. intros y ? <-.
  eapply sim_bind; [apply sim_lift|]. intros r ? <-.
  apply sim_ret. reflexivity.
Qed.

Ltac sim_slot :=
  eapply sim_bind; [apply sim_exec_slot | intros ? ? <-].

Lemma sim_exec_operator n operator :
  sim k d h0 eq (exec_operator H e1 n operator)
                (exec_operator H e2 (ren_node k d n) operator).
Proof.
  unfold exec_operator. cbn [node_a node_b ren_node].
  rewrite !is_None_map.
  destruct (is_None (node_a n) && is_None (node_b n)); [apply sim_raise|].
  destruct (OperatorType_eqb operator ADD).
  { destruct (is_None (node_a n)); [|apply sim_binary].
    sim_slot. apply sim_lift. }
  destruct (OperatorType_eqb operator SUBTRACT).
  { eapply sim_bind; [apply sim_get_opt|]. intros r ? ->.
    replace (match option_map (ren_node k d) r with
             | Some na => is_None (value na)
             | None => true
             end)
      with (match r with
            | Some na => is_None (value na)
            | None => true
            end) by (destruct r; reflexivity).
    destruct (match r with Some na => _ | None => _ end);
      [|apply sim_binary].
    sim_slot. apply sim_lift. }
  destruct (OperatorType_eqb operator FACTORIAL).
  { destruct (is_None (node_b n)); [|apply sim_raise].
    sim_slot. apply sim_lift. }
  destruct (is_None (node_a n) || is_None (node_b n)); [apply sim_raise|].
  repeat match goal with
  | |- sim _ _ _ _ (if ?c then _ else _) _ =>
      destruct c; [apply sim_binary|]
  end.
  apply sim_ret. reflexivity.
Qed.

Lemma sim_exec_comparator n comparator :
  sim k d h0 eq (exec_comparator H e1 n comparator)
                (exec_comparator H e2 (ren_node k d n) comparator).
Proof.
  unfold exec_comparator. cbn [node_a node_b ren_node].
  rewrite !is_None_map.
  destruct (is_None (node_a n) || is_None (node_b n)); [apply sim_raise|].
  do 6 (match goal with
        | |- sim _ _ _ _ (if ?c then _ else _) _ =>
            destruct c; [apply sim_compare|]
        end).
  cbv iota.
  destruct (ComparatorType_eqb comparator OR).
  { sim_slot. destruct (truth H a); [apply sim_ret; reflexivity|].
    apply sim_exec_slot. }
  destruct (ComparatorType_eqb comparator STRICT_OR).
  { sim_slot. destruct (truth H a); [apply sim_ret; reflexivity|].
    sim_slot. apply sim_ret. reflexivity. }
  destruct (ComparatorType_eqb comparator AND).
  { sim_slot. destruct (truth H a); [|apply sim_ret; reflexivity].
    apply sim_exec_slot. }
  destruct (ComparatorType_eqb comparator STRICT_AND).
  { sim_slot. destruct (truth H a); [|apply sim_ret; reflexivity].
    sim_slot. apply sim_ret. reflexivity. }
  apply sim_raise.
Qed.

Lemma sim_exec_argument args i :
  sim k d h0 eq (exec_argument e1 args i)
                (exec_argument e2 (List.map (ren k d) args) i).
Proof.
  unfold exec_argument. rewrite lookup_map.
  destruct (args !! i); cbn; [apply sim_e | apply sim_raise].
Qed.

Lemma sim_sum_arguments args :
  forall acc,
    sim k d h0 eq (sum_arguments H e1 args acc)
                  (sum_arguments H e2 (List.map (ren k d) args) acc).
Proof.
  induction args as [|a args IH]; intros acc; cbn;
    [apply sim_ret; reflexivity|].
  eapply sim_bind; [apply sim_e|]. intros v ? <-.
  eapply sim_bind; [apply sim_lift|]. intros acc' ? <-.
  apply IH.
Qed.

Lemma sim_in_arguments x args :
  sim k d h0 eq (in_arguments H e1 x args)
                (in_arguments H e2 x (List.map (ren k d) args)).
Proof.
  induction args as [|a args IH]; cbn; [apply sim_ret; reflexivity|].
  eapply sim_bind; [apply sim_e|]. intros v ? <-.
  eapply sim_bind; [apply sim_lift|]. intros found ? <-.
  destruct found; [apply sim_ret; reflexivity | apply IH].
Qed.

Ltac sim_arg :=
  eapply sim_bind; [apply sim_exec_argument | intros ? ? <-].

Lemma sim_exec_function n function :
  sim k d h0 eq (exec_function H kwargs e1 n function)
                (exec_function H kwargs e2 (ren_node k d n) function).
Proof.
  unfold exec_function. cbn [arguments ren_node].
  rewrite !length_map.
  assert (Hsecond : forall dflt,
    sim k d h0 eq
      (if Nat.ltb 1 (length (arguments n))
       then exec_argument e1 (arguments n) 1 else ret dflt)
      (if Nat.ltb 1 (length (arguments n))
       then exec_argument e2 (List.map (ren k d) (arguments n)) 1
       else ret dflt)).
  { intros dflt. destruct (Nat.ltb 1 (length (arguments n)));
      [apply sim_exec_argument | apply sim_ret; reflexivity]. }
  destruct (FunctionType_eqb function TODAY).
  { destruct (decide (kwargs = ∅)); [apply sim_lift | apply sim_raise]. }
  destruct (Nat.eqb (length (arguments n)) 0); [apply sim_raise|].
  destruct (FunctionType_eqb function AS_DATE).
  { sim_arg. eapply sim_bind; [apply Hsecond|]. intros y ? <-.
    apply sim_lift. }
  destruct (is_delta function); [sim_arg; apply sim_lift|].
  destruct (FunctionType_eqb function SUM); [apply sim_sum_arguments|].
  destruct (FunctionType_eqb function AVG).
  { eapply sim_bind; [apply sim_sum_arguments|]. intros s ? <-.
    apply sim_lift. }
  destruct (FunctionType_eqb function LOG10); [sim_arg; apply sim_lift|].
  destruct (FunctionType_eqb function NATURAL_LOG);
    [sim_arg; apply sim_lift|].
  destruct (FunctionType_eqb function LOG).
  { sim_arg. eapply sim_bind; [apply Hsecond|]. intros y ? <-.
    apply sim_lift. }
  destruct (FunctionType_eqb function SQUARE_ROOT);
    [sim_arg; apply sim_lift|].
  destruct (FunctionType_eqb function CHAR_LENGTH);
    [sim_arg; apply sim_lift|].
  destruct (FunctionType_eqb function NULL).
  { sim_arg. eapply sim_bind; [apply sim_lift|]. intros b ? <-.
    destruct b; [apply sim_ret; reflexivity|].
    eapply sim_bind; [apply sim_lift|]. intros c ? <-.
    apply sim_ret. reflexivity. }
  destruct (FunctionType_eqb function IN).
  { sim_arg. rewrite skipn_map. apply sim_in_arguments. }
  apply sim_ret. reflexivity.
Qed.

End Nodes.

Lemma sim_exec fuel :
  forall i, sim k d h0 eq (exec H kwargs fuel i)
                          (exec H kwargs fuel (ren k d i)).
Proof.
  induction fuel as [|fuel IH]; intros i.
  { intros h1 h2 o1 h1' _ [= <- <-] Hd. contradiction. }
  cbn [exec].
  eapply sim_bind; [apply sim_get|]. intros n ? [-> _].
  cbn [cls value ren_node].
  destruct (cls n);
    try (apply sim_ret; reflexivity); try apply sim_raise;
    try apply sim_lift.
  - destruct (is_pi (value n)); [apply sim_ret; reflexivity | apply sim_raise].
  - apply sim_exec_operator. exact IH.
  - apply sim_exec_comparator. exact IH.
  - apply sim_exec_function. exact IH.
  - destruct (value n) as [v|]; [|apply sim_raise].
    eapply sim_bind; [apply sim_new_fresh|]. intros base1 base2 Hbase.
    eapply sim_bind; [apply sim_extractNodes|]. intros l1 l2 Hl.
    rewrite <- (Forall2_length _ _ _ Hl).
    eapply sim_bind; [apply sim_createExpressionTree; assumption|].
    intros r1 r2 [Hr _]. rewrite (fid_ren _ _ Hr). apply IH.
Qed.

End Simulation.


(** ** Built stores are closed *)

Lemma bounded_refs k n :
  bounded k n = true <-> Forall (fun i => i < k) (refs n).
Proof.
  unfold bounded, refs. rewrite !andb_true_iff, !Forall_app.
  assert (Ho : forall o, below k o = true
             <-> Forall (fun i => i < k)
                   match o with Some i => [i] | None => [] end).
  { intros [i|]; unfold below.
    - rewrite Nat.ltb_lt, Forall_singleton. tauto.
    - split; auto. }
  assert (Hl : forall l, forallb (fun j => Nat.ltb j k) l = true
             <-> Forall (fun i => i < k) l).
  { induction l as [|j l IH]; cbn [forallb].
    - split; auto.
    - rewrite andb_true_iff, Forall_cons, Nat.ltb_lt, IH. tauto. }
  rewrite !Ho, Hl. tauto.
Qed.

Lemma closed_Forall (h : Store) :
  closed h = true
  <-> Forall (fun n => Forall (fun i => i < length h) (refs n)) h.
Proof.
  unfold closed. rewrite forallb_forall, Forall_forall. split.
  - intros Hc n Hn. apply bounded_refs. apply Hc. apply list_elem_of_In. exact Hn.
  - intros Hc n Hn. apply bounded_refs. apply Hc. apply list_elem_of_In. exact Hn.
Qed.

Lemma closed_new (h : Store) c v :
  closed h = true -> closed (h ++ [fresh c v]) = true.
Proof.
  rewrite !closed_Forall, Forall_app, length_app. cbn. intros Hc. split.
  - eapply Forall_impl; [exact Hc|]. cbn. intros n Hn.
    eapply Forall_impl; [exact Hn|]. cbn. lia.
  - repeat constructor.
Qed.

Lemma closed_insert (h : Store) i n :
  closed h = true ->
  Forall (fun j => j < length h) (refs n) ->
  closed (<[i := n]> h) = true.
Proof.
  rewrite !closed_Forall, length_insert. intros Hc Hn.
  apply Forall_insert; assumption.
Qed.

Lemma closed_get (h : Store) i n :
  closed h = true -> h !! i = Some n ->
  Forall (fun j => j < length h) (refs n).
Proof.
  rewrite closed_Forall, Forall_lookup. intros Hc Hi. exact (Hc i n Hi).
Qed.

#[local] Set Warnings "-clear-no-such-hyp".

Section Keeps.
Implicit Types ids : list nat.

Lemma keeps_ret ids {A} (out : A -> list nat) a :
  out a ⊆ ids -> keeps ids out (ret a).
Proof.
  intros Hin h o h' Hc Hids [= <- <-]. repeat split; auto.
  intros ? [= <-]. rewrite Forall_forall in *. auto.
Qed.

Lemma keeps_raise ids {A} (out : A -> list nat) e : keeps ids out (raise e).
Proof.
  intros h o h' Hc Hids [= <- <-]. repeat split; auto. discriminate.
Qed.

Lemma keeps_diverge ids {A} (out : A -> list nat) : keeps ids out diverge.
Proof.
  intros h o h' Hc Hids [= <- <-]. repeat split; auto. discriminate.
Qed.

Lemma keeps_bind ids {A B} (outA : A -> list nat) (outB : B -> list nat)
    (m : M A) (f : A -> M B) :
  keeps ids outA m ->
  (forall a, keeps (outA a ++ ids) outB (f a)) ->
  keeps ids outB (bind m f).
Proof.
  intros Hm Hf h o h' Hc Hids E. unfold bind in E.
  destruct (m h) as [[a|e|] h1] eqn:E1;
    destruct (Hm _ _ _ Hc Hids E1) as (Hc1 & Hl1 & Ho1).
  - destruct (Hf a h1 o h' Hc1) as (Hc2 & Hl2 & Ho2); auto.
    + apply Forall_app. split; [auto|].
      eapply Forall_impl; [exact Hids|]. cbn. lia.
    + repeat split; auto. lia.
  - injection E as <- <-. repeat split; auto. discriminate.
  - injection E as <- <-. repeat split; auto. discriminate.
Qed.

Lemma keeps_weaken ids ids' {A} (out out' : A -> list nat) (m : M A) :
  ids ⊆ ids' -> (forall a, out' a ⊆ out a) ->
  keeps ids out m -> keeps ids' out' m.
Proof.
  intros Hi Ho Hm h o h' Hc Hids E.
  destruct (Hm h o h' Hc) as (Hc' & Hl & Hout); auto.
  { rewrite Forall_forall in *. auto. }
  repeat split; auto. intros a Ha. specialize (Hout a Ha).
  rewrite Forall_forall in *. intros x Hx. apply Hout. apply Ho. exact Hx.
Qed.

Lemma keeps_get ids i : keeps ids refs (get i).
Proof.
  intros h o h' Hc Hids E. unfold get in E.
  destruct (h !! i) as [n|] eqn:Hi; injection E as <- <-;
    repeat split; auto; [|discriminate].
  intros ? [= <-]. eapply closed_get; eauto.
Qed.

Lemma keeps_new ids c v : keeps ids (fun i => [i]) (new (fresh c v)).
Proof.
  intros h o h' Hc Hids [= <- <-]. rewrite length_app. cbn.
  repeat split; [apply closed_new; auto | lia |].
  intros ? [= <-]. apply Forall_singleton. lia.
Qed.

Lemma keeps_update ids i (f : Node -> Node) :
  (forall n, refs (f n) ⊆ ids ++ refs n) ->
  keeps ids (fun _ => []) (update i f).
Proof.
  intros Hf h o h' Hc Hids E. unfold update in E.
  destruct (h !! i) as [n|] eqn:Hi; injection E as <- <-.
  - rewrite length_insert. repeat split; auto.
    apply closed_insert; auto.
    pose proof (closed_get _ _ _ Hc Hi) as Hn.
    rewrite Forall_forall in *. intros x Hx.
    apply Hf in Hx. apply elem_of_app in Hx as [Hx|Hx]; auto.
  - repeat split; auto.
Qed.

Lemma refs_node c v a b l :
  refs (mkNode c v a b l)
  = match a with Some i => [i] | None => [] end
    ++ match b with Some i => [i] | None => [] end ++ l.
Proof. reflexivity. Qed.

Lemma keeps_set_node_a ids i a :
  (forall j, a = Some j -> j ∈ ids) ->
  keeps ids (fun _ => []) (set_node_a i a).
Proof.
  intros Ha. apply keeps_update. intros n. rewrite refs_node. unfold refs.
  destruct a as [j|]; [specialize (Ha j eq_refl)|]; set_solver.
Qed.

Lemma keeps_set_node_b ids i b :
  (forall j, b = Some j -> j ∈ ids) ->
  keeps ids (fun _ => []) (set_node_b i b).
Proof.
  intros Hb. apply keeps_update. intros n. rewrite refs_node. unfold refs.
  destruct b as [j|]; [specialize (Hb j eq_refl)|]; set_solver.
Qed.

Lemma keeps_set_arguments ids i l :
  l ⊆ ids -> keeps ids (fun _ => []) (set_arguments i l).
Proof.
  intros Hl. apply keeps_update. intros n. rewrite refs_node. unfold refs.
  set_solver.
Qed.

End Keeps.

Section KeepsProgram.
Implicit Types ids : list nat.

Lemma keeps_createToken ids t v : keeps ids (fun i => [i]) (createToken t v).
Proof.
  destruct t; unfold createToken; try apply keeps_new.
  - destruct (operatorMap v), (operatorWeightMap v);
      try apply keeps_new; apply keeps_raise.
  - destruct (comparatorMap v); [apply keeps_new | apply keeps_raise].
  - destruct (functionMap v); [apply keeps_new | apply keeps_raise].
Qed.

Lemma keeps_cons ids (m : M nat) (r : M (list nat)) :
  (forall ids', keeps ids' (fun i => [i]) m) ->
  (forall ids', keeps ids' (fun l => l) r) ->
  keeps ids (fun l => l) (i <- m ;; l <- r ;; ret (i :: l)).
Proof.
  intros Hm Hr. eapply keeps_bind; [apply Hm|]. intros i.
  eapply keeps_bind; [apply Hr|]. intros l.
  apply keeps_ret. set_solver.
Qed.

Lemma keeps_make_nodes ms : forall ids, keeps ids (fun l => l) (make_nodes ms).
Proof.
  induction ms as [|[t v] ms IH]; intros ids;
    [apply keeps_ret; set_solver|].
  cbn [make_nodes].
  destruct t;
    try (apply keeps_cons; [intros; apply keeps_createToken | exact IH]).
  destruct (sub_parens v);
    [apply IH
    | apply keeps_cons; [intros; apply keeps_createToken | exact IH]].
Qed.

Lemma keeps_new_groups vs : forall ids, keeps ids (fun l => l) (new_groups vs).
Proof.
  induction vs as [|v vs IH]; intros ids; [apply keeps_ret; set_solver|].
  cbn [new_groups]. apply keeps_cons; [intros; apply keeps_new | exact IH].
Qed.

Lemma keeps_split ids n : keeps ids (fun l => l) (split n).
Proof.
  unfold split. destruct (value n);
    [apply keeps_new_groups | apply keeps_raise].
Qed.

Lemma keeps_get_opt ids o :
  keeps ids (fun r : option Node => []) (get_opt o).
Proof.
  destruct o as [i|]; cbn [get_opt]; [|apply keeps_ret; set_solver].
  eapply keeps_bind; [apply keeps_get|]. intros n.
  apply keeps_ret. set_solver.
Qed.

Lemma slot_refs_a n j : node_a n = Some j -> j ∈ refs n.
Proof. unfold refs. intros ->. set_solver. Qed.

Lemma slot_refs_b n j : node_b n = Some j -> j ∈ refs n.
Proof. unfold refs. intros ->. set_solver. Qed.

Lemma keeps_attach_group ids base node :
  node ∈ ids -> keeps ids (fun _ => []) (attach_group base node).
Proof.
  intros Hnode. unfold attach_group.
  eapply keeps_bind; [apply keeps_get|]. intros b.
  eapply keeps_bind; [apply keeps_get|]. intros n.
  eapply keeps_bind; [apply keeps_get_opt|]. intros nb.
  destruct (Some_is_type FUNCTION nb).
  { eapply keeps_bind; [apply keeps_split|]. intros args.
    destruct (node_b b);
      [apply keeps_set_arguments | apply keeps_ret]; set_solver. }
  eapply keeps_bind; [apply keeps_get_opt|]. intros na.
  destruct (Some_is_type FUNCTION na).
  { eapply keeps_bind; [apply keeps_split|]. intros args.
    destruct (node_a b);
      [apply keeps_set_arguments | apply keeps_ret]; set_solver. }
  destruct (is_type FUNCTION b).
  { eapply keeps_bind; [apply keeps_split|]. intros args.
    apply keeps_set_arguments. set_solver. }
  destruct (is_None (node_a b)).
  { apply keeps_set_node_a. intros j [= <-]. set_solver. }
  destruct (is_None (node_b b)).
  { apply keeps_set_node_b. intros j [= <-]. set_solver. }
  apply keeps_raise.
Qed.

Lemma keeps_createExpressionTree fuel :
  forall ids base nodes,
    base ∈ ids -> nodes ⊆ ids ->
    keeps ids tree_refs (createExpressionTree fuel base nodes).
Proof.
  induction fuel as [|fuel IH]; intros ids base nodes Hbase Hnodes;
    [apply keeps_diverge|].
  destruct nodes as [|node nodes].
  { apply keeps_ret. unfold tree_refs. set_solver. }
  cbn [createExpressionTree].
  assert (Hnode : node ∈ ids) by set_solver.
  assert (Hrest : nodes ⊆ ids) by set_solver.
  eapply keeps_bind; [apply keeps_get|]. intros n.
  eapply keeps_bind; [apply keeps_get|]. intros b.
  destruct (is_type OPERATOR n).
  { destruct (is_type OPERATOR b && (node_weight b <? node_weight n)%Z).
    - eapply keeps_bind.
      { apply keeps_set_node_a. intros j Hj%slot_refs_b. set_solver. }
      intros ?.
      eapply keeps_bind; [apply IH; set_solver|]. intros r.
      eapply keeps_bind.
      { apply keeps_set_node_b. intros j [= <-]. unfold tree_refs.
        set_solver. }
      intros ?. apply IH; unfold tree_refs; set_solver.
    - eapply keeps_bind.
      { apply keeps_set_node_a. intros j [= <-]. set_solver. }
      intros ?. apply IH; set_solver. }
  destruct (is_type COMPARATOR n).
  { eapply keeps_bind.
    { apply keeps_set_node_a. intros j [= <-]. set_solver. }
    intros ?.
    eapply keeps_bind.
    - instantiate (1 := tree_refs). destruct nodes as [|next rest].
      + eapply keeps_bind; [apply keeps_new|]. intros e.
        apply IH; set_solver.
      + apply IH; set_solver.
    - intros r. eapply keeps_bind.
      { apply keeps_set_node_b. intros j [= <-]. unfold tree_refs.
        set_solver. }
      intros ?. apply IH; unfold tree_refs; set_solver. }
  destruct (is_type TOKEN_GROUP n).
  { eapply keeps_bind; [apply keeps_attach_group; set_solver|].
    intros ?. apply IH; set_solver. }
  destruct (is_None (value b)); [apply IH; set_solver|].
  destruct (is_None (node_a b)).
  { eapply keeps_bind.
    { apply keeps_set_node_a. intros j [= <-]. set_solver. }
    intros ?. apply IH; set_solver. }
  destruct (is_None (node_b b)).
  { eapply keeps_bind.
    { apply keeps_set_node_b. intros j [= <-]. set_solver. }
    intros ?. apply IH; set_solver. }
  apply keeps_raise.
Qed.

Lemma keeps_build e : keeps [] tree_refs (build e).
Proof.
  unfold build.
  eapply keeps_bind; [apply keeps_make_nodes|]. intros nodes.
  eapply keeps_bind; [apply keeps_new|]. intros base.
  apply keeps_createExpressionTree; set_solver.
Qed.

End KeepsProgram.

(** The tree built from any expression lives in a closed store. *)
Lemma build_closed e tree (h : Store) :
  build e [] = (Ok tree, h) -> closed h = true.
Proof.
  intros E. destruct (keeps_build e [] (Ok tree) h) as (Hc & _ & _); auto.
Qed.

(** ** Idempotence *)

Lemma exec_defined (H : Host) (kwargs : gmap text PassedData) fuel i
    (h h' : Store) r :
  exec H kwargs fuel i h = (r, h') -> r <> Diverge -> i < length h.
Proof.
  destruct fuel as [|fuel]; [intros [= <- _] Hd; contradiction|].
  rewrite exec_S. destruct (h !! i) eqn:Hi.
  - intros _ _. eapply lookup_lt_Some. exact Hi.
  - intros [= <- _] Hd. contradiction.
Qed.

Lemma rout_eq {A} (o1 o2 : outcome A) : rout eq o1 o2 -> o2 = o1.
Proof. destruct o1, o2; cbn; intros E; congruence || contradiction. Qed.

(** A store is related to each of its extensions. *)
Lemma related_extension (h h' : Store) :
  firstn (length h) h' = h ->
  related (length h) (length h' - length h) h h h'.
Proof.
  intros E. constructor.
  - apply firstn_all.
  - exact E.
  - assert (length h <= length h').
    { rewrite <- E at 1. rewrite length_take. lia. }
    lia.
  - intros j n Hj Hn. apply lookup_lt_Some in Hn. lia.
Qed.

(** Evaluation from a closed store extends it, and a second evaluation
    from the extended store has the outcome of the first. *)
Lemma exec_twice (H : Host) (kwargs : gmap text PassedData)
    (fuel i : nat) (h h' : Store) (r : outcome PassedData) :
  closed h = true ->
  exec H kwargs fuel i h = (r, h') ->
  r <> Diverge ->
  firstn (length h) h' = h
  /\ exists h'', exec H kwargs fuel i h' = (r, h'').
Proof.
  intros Hc E Hd.
  pose proof (exec_defined _ _ _ _ _ _ _ E Hd) as Hi.
  assert (E1 : firstn (length h) h' = h).
  { destruct (sim_exec (length h) 0 h eq_refl Hc H kwargs fuel i
                h h r h') as (o2 & h2 & _ & Hr & _); auto.
    - replace 0 with (length h - length h) by lia.
      apply related_extension. apply firstn_all.
    - exact (rel_old1 _ _ _ _ _ Hr). }
  split; [exact E1|].
  destruct (sim_exec (length h) (length h' - length h) h eq_refl Hc
              H kwargs fuel i h h' r h') as (o2 & h2 & E2 & _ & Ho); auto.
  - apply related_extension. exact E1.
  - rewrite ren_below in E2 by exact Hi.
    apply rout_eq in Ho. subst o2. exists h2. exact E2.
Qed.

(** C9: evaluating a node changes no object that existed: the store
    only grows, by the objects that groups build for themselves.  And
    evaluating the same node again, in the store the first evaluation
    left and with the same keywords, gives the same value or the same
    exception.  This holds from every closed store, and the store of
    every tree that the builder returns is closed.  The clock is a
    reading fixed in the host, which sets aside the functions that
    read it. *)
Theorem evaluation_idempotent (H : Host) (kwargs : gmap text PassedData)
    (fuel : nat) :
  (forall (i : nat) (h h' : Store) (r : outcome PassedData),
      closed h = true ->
      exec H kwargs fuel i h = (r, h') ->
      r <> Diverge ->
      firstn (length h) h' = h
      /\ exists h'', exec H kwargs fuel i h' = (r, h''))
  /\ (forall (expression : text) (tree : nat * list nat) (h h' : Store)
             (r : outcome PassedData),
      build expression [] = (Ok tree, h) ->
      exec H kwargs fuel (fst tree) h = (r, h') ->
      r <> Diverge ->
      firstn (length h) h' = h
      /\ exists h'', exec H kwargs fuel (fst tree) h' = (r, h'')).
Proof.
  split.
  - intros i h h' r. apply exec_twice.
  - intros e tree h h' r Hb. apply exec_twice.
    eapply build_closed. exact Hb.
Qed.

Lemma evaluation_idempotent_witness :
  let h := [ fresh CNumberNode (Some (txt "4"));
             mkNode (COperatorNode MULTIPLY 1%Z) (Some (txt "*"))
                    (Some 0) (Some 2) [];
             fresh CTokenGroupNode (Some (txt "2 + 3"));
             fresh CNode None ] in
  let run := exec no_library ∅ 4 1 h in
  build (txt "4 * (2 + 3)") [] = (Ok (1, []), h)
  /\ fst run = Ok (VFloat (flt 20))
  /\ firstn 4 (snd run) = h
  /\ exists h'',
      exec no_library ∅ 4 1 (snd run) = (Ok (VFloat (flt 20)), h'').
Proof.
  intros h run.
  split; [vm_compute; reflexivity|]. split; [vm_compute; reflexivity|].
  destruct (evaluation_idempotent no_library ∅ 4) as [_ B].
  apply (B (txt "4 * (2 + 3)") (1, []) h (snd run) (Ok (VFloat (flt 20)))).
  - vm_compute. reflexivity.
  - vm_compute. reflexivity.
  - discriminate.
Defined.

(** * Further properties *)

(** ** Strings and constants *)

Lemma text_eqb_eq (a b : text) : text_eqb a b = true <-> a = b.
Proof.
  revert b. induction a as [|x a IH]; intros [|y b]; cbn; try (split; congruence).
  rewrite andb_true_iff, N.eqb_eq, IH. split.
  - intros [-> ->]. reflexivity.
  - intros [= -> ->]. auto.
Qed.

Lemma strip_end_length (c : N) (all : bool) (s : text) :
  length (strip_end c all s) <= length s.
Proof.
  unfold strip_end. cbv zeta beta.
  destruct (rev s) as [|x r] eqn:E; [cbn; lia|].
  assert (Hs : length s = S (length r)).
  { rewrite <- length_rev, E. reflexivity. }
  assert (Hcut : forall r0 : text,
    length (if all then skipn (run_length (N.eqb c) r0) r0
            else match r0 with
                 | y :: r' => if N.eqb c y then r' else r0
                 | [] => []
                 end) <= length r0).
  { intros r0. destruct all.
    - rewrite length_skipn. lia.
    - destruct r0 as [|y r']; [cbn; lia|].
      destruct (N.eqb c y); cbn; lia. }
  destruct (N.eqb c x) eqn:Ex.
  - rewrite length_rev, Hs. pose proof (Hcut (x :: r)) as Hc.
    cbn [length] in Hc. rewrite Ex in Hc. exact Hc.
  - destruct (N.eqb x NEWLINE); [|lia].
    rewrite length_app, length_rev, Hs, Nat.add_1_r.
    apply le_n_S. apply Hcut.
Qed.

(** X1: [StringNode] takes one quote off each end: a text given with its
    quotes is stored without them, whatever it contains, and no text
    loses more than two characters. *)
Theorem string_quotes_stripped (v : text) :
  sub_quotes ([QUOTE] ++ v ++ [QUOTE]) = v
  /\ length (sub_quotes v) <= length v
  /\ length v <= length (sub_quotes v) + 2.
Proof.
  split; [|split].
  - unfold sub_quotes. cbn [app]. rewrite N.eqb_refl.
    unfold strip_end. rewrite rev_app_distr. cbn [rev app].
    rewrite N.eqb_refl. apply rev_involutive.
  - unfold sub_quotes. destruct v as [|c v']; [cbn; lia|].
    destruct (N.eqb QUOTE c).
    + pose proof (strip_end_length QUOTE false v'). cbn [length]. lia.
    + apply strip_end_length.
  - assert (Hend : forall s : text,
              length s <= length (strip_end QUOTE false s) + 1).
    { intros s. unfold strip_end. destruct (rev s) as [|x r] eqn:E.
      - apply (f_equal (@length N)) in E. rewrite length_rev in E.
        cbn in *. lia.
      - assert (Hs : length s = S (length r)).
        { rewrite <- length_rev, E. reflexivity. }
        destruct (N.eqb QUOTE x).
        + rewrite length_rev. lia.
        + destruct (N.eqb x NEWLINE); [|lia].
          rewrite length_app, length_rev. cbn [length].
          destruct r as [|y r']; [cbn in *; lia|].
          destruct (N.eqb QUOTE y); cbn [length] in *; lia. }
    unfold sub_quotes. destruct v as [|c v']; [cbn; lia|].
    destruct (N.eqb QUOTE c).
    + specialize (Hend v'). cbn [length]. lia.
    + specialize (Hend (c :: v')). lia.
Qed.

(** X2: the one constant is [pi], spelled in lower case: a Constant
    node of that name evaluates to [math.pi], and one of any other name
    raises, naming it, without touching the store. *)
Theorem constant_pi_only (H : Host) (kwargs : gmap text PassedData)
    (fuel i : nat) (n : Node) (name : text) (h : Store) :
  h !! i = Some n ->
  cls n = CConstantNode ->
  value n = Some name ->
  (name = txt "pi" -> exec H kwargs (S fuel) i h = (Ok (VFloat pi), h))
  /\ (name <> txt "pi" ->
      exec H kwargs (S fuel) i h
      = (Raise (Exception (name ++ txt " is not a defined constant")), h)).
Proof.
  intros Hi Hc Hv. rewrite exec_S, Hi, Hc, Hv. cbn [is_pi str]. split.
  - intros ->. reflexivity.
  - intros Hne. destruct (text_eqb name (txt "pi")) eqn:E; [|reflexivity].
    apply text_eqb_eq in E. contradiction.
Qed.

Lemma constant_pi_only_witness :
  fst (evaluate no_library ∅ 1 (txt "pi") []) = Ok (VFloat pi)
  /\ exec no_library ∅ 1 0 [fresh CConstantNode (Some (txt "PI"))]
     = (Raise (Exception (txt "PI is not a defined constant")),
        [fresh CConstantNode (Some (txt "PI"))]).
Proof.
  split; [vm_compute; reflexivity|].
  apply (constant_pi_only no_library ∅ 0 0
           (fresh CConstantNode (Some (txt "PI"))) (txt "PI")
           [fresh CConstantNode (Some (txt "PI"))] eq_refl eq_refl eq_refl).
  discriminate.
Defined.

(** ** Operands *)

(** X3: an operator node with no child raises; the operators that need
    two operands raise when either is missing; and factorial raises when
    it has a right operand.  In each case no child is evaluated and the
    store is as it was. *)
Theorem operator_operands_checked (H : Host)
    (kwargs : gmap text PassedData) (fuel i : nat) (n : Node)
    (operator : OperatorType) (w : Z) (h : Store) :
  h !! i = Some n ->
  cls n = COperatorNode operator w ->
  (node_a n = None -> node_b n = None ->
   exec H kwargs (S fuel) i h
   = (Raise (Exception (txt "Both targets on opperand are None")), h))
  /\ (In operator [MULTIPLY; DIVIDE; MODULUS; INT_DIVIDE; EXPONENTIAL] ->
      is_None (node_a n) = negb (is_None (node_b n)) ->
      exec H kwargs (S fuel) i h
      = (Raise (Exception (txt "One target on opperand is None")), h))
  /\ (operator = FACTORIAL -> forall b, node_b n = Some b ->
      exec H kwargs (S fuel) i h
      = (Raise (Exception
                  (txt "Factorial Operand can not have second target")), h)).
Proof.
  intros Hi Hc. rewrite exec_S, Hi, Hc. unfold exec_operator.
  split; [|split].
  - intros -> ->. reflexivity.
  - intros Hop Hab.
    destruct (node_a n), (node_b n); try discriminate;
      cbn in Hop; decompose [or] Hop; subst; try contradiction;
      reflexivity.
  - intros -> b ->. destruct (node_a n); reflexivity.
Qed.

Lemma operator_operands_checked_witness :
  exec no_library ∅ 1 1
    [ fresh CNumberNode (Some (txt "2"));
      mkNode (COperatorNode MULTIPLY 1%Z) (Some (txt "*")) (Some 0) None [] ]
  = (Raise (Exception (txt "One target on opperand is None")),
     [ fresh CNumberNode (Some (txt "2"));
       mkNode (COperatorNode MULTIPLY 1%Z) (Some (txt "*")) (Some 0) None [] ])
  /\ fst (evaluate no_library ∅ 2 (txt "2 *") [])
     = Raise (Exception (txt "One target on opperand is None")).
Proof.
  split; [|vm_compute; reflexivity].
  match goal with
  | |- exec _ _ _ _ ?st = _ =>
      apply (operator_operands_checked no_library ∅ 0 1
               (mkNode (COperatorNode MULTIPLY 1%Z) (Some (txt "*")) (Some 0)
                       None [])
               MULTIPLY 1%Z st eq_refl eq_refl)
  end.
  - cbn. auto.
  - reflexivity.
Defined.

(** X4: a comparator node evaluates nothing and raises when either
    operand is missing. *)
Theorem comparator_operands_checked (H : Host)
    (kwargs : gmap text PassedData) (fuel i : nat) (n : Node)
    (comparator : ComparatorType) (h : Store) :
  h !! i = Some n ->
  cls n = CComparatorNode comparator ->
  node_a n = None \/ node_b n = None ->
  exec H kwargs (S fuel) i h
  = (Raise (Exception (txt "1 of 2 targets on comparator is None")), h).
Proof.
  intros Hi Hc Hab. rewrite exec_S, Hi, Hc. unfold exec_comparator.
  destruct Hab as [-> | ->]; [reflexivity|].
  destruct (node_a n); reflexivity.
Qed.

Lemma comparator_operands_checked_witness :
  exec no_library ∅ 1 0 [fresh (CComparatorNode LT) (Some (txt "<"))]
  = (Raise (Exception (txt "1 of 2 targets on comparator is None")),
     [fresh (CComparatorNode LT) (Some (txt "<"))]).
Proof.
  match goal with
  | |- exec _ _ _ _ ?st = _ =>
      apply (comparator_operands_checked no_library ∅ 0 0
               (fresh (CComparatorNode LT) (Some (txt "<"))) LT st
               eq_refl eq_refl)
  end.
  left. reflexivity.
Defined.

(** X5: the loose and strict [or] and [and] evaluate their right operand
    only when the left one does not decide: a true left operand of [|]
    is the result (and [True] that of [||]), a false left operand of
    [&] is the result (and [False] that of [&&]); the store is the one
    the left operand left. *)
Theorem boolean_short_circuit (H : Host) (kwargs : gmap text PassedData)
    (fuel i a b : nat) (n : Node) (comparator : ComparatorType)
    (h h1 : Store) (x : PassedData) :
  h !! i = Some n ->
  cls n = CComparatorNode comparator ->
  node_a n = Some a ->
  node_b n = Some b ->
  exec H kwargs fuel a h = (Ok x, h1) ->
  (comparator = OR -> truth H x = true ->
   exec H kwargs (S fuel) i h = (Ok x, h1))
  /\ (comparator = STRICT_OR -> truth H x = true ->
      exec H kwargs (S fuel) i h = (Ok (VBool true), h1))
  /\ (comparator = AND -> truth H x = false ->
      exec H kwargs (S fuel) i h = (Ok x, h1))
  /\ (comparator = STRICT_AND -> truth H x = false ->
      exec H kwargs (S fuel) i h = (Ok (VBool false), h1)).
Proof.
  intros Hi Hc Ha Hb Ex. rewrite exec_S, Hi, Hc. unfold exec_comparator.
  rewrite Ha, Hb. cbn [is_None orb exec_slot].
  repeat split; intros -> Ht; cbn [ComparatorType_eqb];
    unfold bind; rewrite Ex, Ht; reflexivity.
Qed.

(** The right operand here is an empty node, which raises when it is
    evaluated. *)
Lemma boolean_short_circuit_witness :
  exec no_library ∅ 2 2
    [ fresh CNumberNode (Some (txt "1"));
      fresh CNode None;
      mkNode (CComparatorNode OR) (Some (txt "|")) (Some 0) (Some 1) [] ]
  = (Ok (VFloat (flt 1)),
     [ fresh CNumberNode (Some (txt "1"));
       fresh CNode None;
       mkNode (CComparatorNode OR) (Some (txt "|")) (Some 0) (Some 1) [] ]).
Proof.
  match goal with
  | |- exec _ _ _ _ ?st = _ =>
      destruct (boolean_short_circuit no_library ∅ 1 2 0 1
                  (mkNode (CComparatorNode OR) (Some (txt "|")) (Some 0)
                          (Some 1) [])
                  OR st st (VFloat (flt 1))
                  eq_refl eq_refl eq_refl eq_refl eq_refl) as [T _]
  end.
  apply T; reflexivity.
Defined.

(** ** The clock *)

(** X6: [today] evaluates to the clock reading only when no keyword is
    passed; its function takes no keyword, so with any variable bound the
    call raises [TypeError].  Arguments are never looked at. *)
Theorem today_takes_no_keyword (H : Host) (kwargs : gmap text PassedData)
    (fuel i : nat) (n : Node) (h : Store) :
  h !! i = Some n ->
  cls n = CFunctionNode TODAY ->
  (kwargs = ∅ -> exec H kwargs (S fuel) i h = (datetime_now H, h))
  /\ (kwargs <> ∅ -> exec H kwargs (S fuel) i h = (Raise TypeError, h)).
Proof.
  intros Hi Hc. rewrite exec_S, Hi, Hc. unfold exec_function.
  cbn [FunctionType_eqb]. split; intros Hk.
  - destruct (decide (kwargs = ∅)); [reflexivity | contradiction].
  - destruct (decide (kwargs = ∅)); [contradiction | reflexivity].
Qed.

Lemma today_takes_no_keyword_witness :
  fst (evaluate no_library {[ txt "x" := VInt 1 ]} 1 (txt "today()") [])
  = Raise TypeError
  /\ exec no_library {[ txt "x" := VInt 1 ]} 1 0
       [fresh (CFunctionNode TODAY) (Some (txt "today"))]
     = (Raise TypeError, [fresh (CFunctionNode TODAY) (Some (txt "today"))]).
Proof.
  split; [vm_compute; reflexivity|].
  match goal with
  | |- exec _ _ _ _ ?st = _ =>
      apply (today_takes_no_keyword no_library {[ txt "x" := VInt 1 ]} 0 0
               (fresh (CFunctionNode TODAY) (Some (txt "today"))) st
               eq_refl eq_refl)
  end.
  intros E. apply (f_equal (fun m => m !! txt "x")) in E.
  vm_compute in E. discriminate.
Defined.

(** ** Tokens *)

Lemma run_length_le (p : N -> bool) (s : text) : run_length p s <= length s.
Proof.
  induction s as [|c s IH]; cbn; [lia|]. destruct (p c); cbn; lia.
Qed.

Lemma run_length_forallb (p : N -> bool) (s : text) :
  forallb p (firstn (run_length p s) s) = true.
Proof.
  induction s as [|c s IH]; cbn; [reflexivity|].
  destruct (p c) eqn:E; cbn; [rewrite E; exact IH | reflexivity].
Qed.

Lemma last_index_from_bounds (c : N) (s : text) :
  forall i k, last_index_from c s i = Some k ->
    1 <= k /\ i <= k < i + length s.
Proof.
  induction s as [|x s IH]; intros i k E; cbn in E; [discriminate|].
  destruct (last_index_from c s (S i)) as [k'|] eqn:E'.
  - injection E as <-. apply IH in E'. cbn [length]. lia.
  - destruct (N.eqb c x && negb (Nat.eqb i 0)) eqn:Ec; [|discriminate].
    injection E as <-. apply andb_prop in Ec as [_ Hi].
    apply negb_true_iff, Nat.eqb_neq in Hi. cbn [length]. lia.
Qed.

Lemma group_length_bounds (s : text) :
  forall depth n m, group_length s depth n = Some m ->
    n < m <= n + length s.
Proof.
  induction s as [|c s IH]; intros depth n m E; cbn [group_length] in E;
    [discriminate|].
  cbn [length].
  destruct (N.eqb c LPAREN).
  { destruct (Nat.ltb depth 3); [|discriminate]. apply IH in E. lia. }
  destruct (N.eqb c RPAREN).
  { destruct depth as [|[|d]]; [discriminate | | apply IH in E; lia].
    injection E as <-. lia. }
  destruct depth; [discriminate|]. apply IH in E. lia.
Qed.

Lemma is_prefix_length (p s : text) :
  is_prefix p s = true -> length p <= length s.
Proof.
  revert s. induction p as [|x p IH]; intros [|y s]; cbn; try lia;
    try discriminate.
  intros [_ E]%andb_prop. apply IH in E. lia.
Qed.

Lemma first_prefix_bounds (ps : list text) (s : text) (n : nat) :
  Forall (fun p => 1 <= length p) ps ->
  first_prefix ps s = Some n -> 1 <= n <= length s.
Proof.
  induction 1 as [|p ps Hp Hps IH]; cbn; [discriminate|].
  destruct (is_prefix p s) eqn:E; [|exact IH].
  intros [= <-]. apply is_prefix_length in E. lia.
Qed.

Lemma identifier_length_bounds (s : text) (n : nat) :
  identifier_length s = Some n -> 1 <= n <= length s.
Proof.
  destruct s as [|c s]; cbn; [discriminate|].
  destruct (is_letter c && _); [|discriminate]. intros [= <-].
  pose proof (run_length_le is_ident_char s). lia.
Qed.

Lemma match_run_bounds (p : N -> bool) (s : text) (n : nat) :
  match_run p s = Some n -> 1 <= n <= length s.
Proof.
  unfold match_run. destruct (Nat.eqb _ 0) eqn:E; [discriminate|].
  intros [= <-]. apply Nat.eqb_neq in E.
  pose proof (run_length_le p s). lia.
Qed.

(** Every alternative of the pattern takes at least one character and
    none beyond the text. *)
Lemma match_here_bounds (prev : option N) (s : text) t n :
  match_here prev s = Some (t, n) -> 1 <= n <= length s.
Proof.
  unfold match_here.
  destruct (match_string prev s) as [k|] eqn:E1.
  { intros [= _ <-]. unfold match_string in E1.
    destruct (prev_is QUOTE prev); [|discriminate].
    apply last_index_from_bounds in E1. rewrite length_take in E1.
    pose proof (run_length_le (fun c => negb (N.eqb c NEWLINE)) s). lia. }
  destruct (match_variable prev s) as [k|] eqn:E2.
  { intros [= _ <-]. unfold match_variable in E2.
    destruct (prev_is LBRACKET prev); [|discriminate].
    destruct (negb (Nat.eqb _ 0) && _) eqn:E; [|discriminate].
    injection E2 as <-. apply andb_prop in E as [E _].
    apply negb_true_iff, Nat.eqb_neq in E.
    pose proof (run_length_le is_var_char s). lia. }
  destruct (match_group s) as [k|] eqn:E3.
  { intros [= _ <-]. apply group_length_bounds in E3. lia. }
  destruct (match_comparator s) as [k|] eqn:E4.
  { intros [= _ <-]. eapply first_prefix_bounds; [|exact E4].
    repeat constructor. }
  destruct (match_function s) as [k|] eqn:E5.
  { intros [= _ <-]. unfold match_function in E5.
    destruct (identifier_length s) as [j|] eqn:Ej; [|discriminate].
    destruct (starts_with LPAREN _); [|discriminate]. injection E5 as <-.
    apply identifier_length_bounds. exact Ej. }
  destruct (identifier_length s) as [k|] eqn:E6.
  { intros [= _ <-]. apply identifier_length_bounds. exact E6. }
  destruct (match_run is_number_char s) as [k|] eqn:E7.
  { intros [= _ <-]. eapply match_run_bounds. exact E7. }
  destruct (match_run is_operator_char s) as [k|] eqn:E8; [|discriminate].
  intros [= _ <-]. eapply match_run_bounds. exact E8.
Qed.

Lemma covers_gap (vs : list text) (s : text) (c : N) :
  covers vs s -> covers vs (c :: s).
Proof.
  intros Hc. destruct Hc as [s|gap v vs s Hv Hc]; [constructor|].
  apply (covers_cons (c :: gap) v vs s); assumption.
Qed.

Lemma finditer_covers (s : text) :
  forall skip prev,
    covers (List.map snd (finditer skip prev s)) (skipn skip s).
Proof.
  induction s as [|c s IH]; intros skip prev.
  { cbn. destruct skip; constructor. }
  destruct skip as [|k]; [|cbn; apply IH].
  cbn [finditer skipn].
  destruct (match_here prev (c :: s)) as [[t n]|] eqn:E.
  - apply match_here_bounds in E as [Hn Hl].
    cbn [List.map snd].
    rewrite <- (firstn_skipn n (c :: s)) at 2.
    apply (covers_cons [] (firstn n (c :: s))).
    + destruct n; [lia|]. discriminate.
    + destruct n; [lia|]. cbn [skipn Nat.pred]. apply IH.
  - apply covers_gap. apply (IH 0).
Qed.

Lemma covers_length (vs : list text) (s : text) :
  covers vs s -> length (List.concat vs) <= length s.
Proof.
  induction 1 as [s|gap v vs s Hv Hc IH]; cbn; [lia|].
  rewrite !length_app. lia.
Qed.

(** X7: the tokens are slices of the expression, in order and without
    overlap, each of at least one character; what lies between them
    (white space and the characters no alternative matches) is skipped
    without an error. *)
Theorem tokens_are_slices (s : text) :
  covers (List.map snd (finditer 0 None s)) s
  /\ length (List.concat (List.map snd (finditer 0 None s))) <= length s.
Proof.
  assert (Hc : covers (List.map snd (finditer 0 None s)) s)
    by apply (finditer_covers s 0 None).
  split; [exact Hc | apply covers_length; exact Hc].
Qed.

Lemma is_space_cases (c : N) :
  is_space c = true ->
  In c [9; 10; 11; 12; 13; 28; 29; 30; 31; 32; 133; 160; 5760; 8192; 8193;
        8194; 8195; 8196; 8197; 8198; 8199; 8200; 8201; 8202; 8232; 8233;
        8239; 8287; 12288]%N.
Proof.
  unfold is_space, in_range.
  rewrite !orb_true_iff, !andb_true_iff, !N.leb_le, !N.eqb_eq.
  cbn [In]. lia.
Qed.

Lemma match_here_space (prev : option N) (c : N) (s : text) :
  prev_is QUOTE prev = false -> prev_is LBRACKET prev = false ->
  is_space c = true ->
  match_here prev (c :: s) = None.
Proof.
  intros Hq Hb Hc. unfold match_here, match_string, match_variable.
  rewrite Hq, Hb. apply is_space_cases in Hc. cbn [In] in Hc.
  repeat (destruct Hc as [<- | Hc]; [reflexivity|]). contradiction.
Qed.

Lemma finditer_blank (s : text) :
  forall prev,
    prev_is QUOTE prev = false -> prev_is LBRACKET prev = false ->
    forallb is_space s = true ->
    finditer 0 prev s = [].
Proof.
  induction s as [|c s IH]; intros prev Hq Hb Hs; [reflexivity|].
  cbn [forallb] in Hs. apply andb_prop in Hs as [Hc Hs].
  cbn [finditer]. rewrite (match_here_space prev c s Hq Hb Hc).
  apply IH; [| |exact Hs]; cbn [prev_is];
    apply is_space_cases in Hc; cbn [In] in Hc;
    repeat (destruct Hc as [<- | Hc]; [reflexivity|]); contradiction.
Qed.

(** X8: an expression that is empty or white space only has no token;
    the builder then returns the empty base node, and evaluating it
    raises. *)
Theorem blank_expression_raises (H : Host) (kwargs : gmap text PassedData)
    (fuel : nat) (expression : text) :
  forallb is_space expression = true ->
  extractNodes expression [] = (Ok [], [])
  /\ evaluate H kwargs (S fuel) expression []
     = (Raise (Exception (txt "Can not execute on an empty node")),
        [fresh CNode None]).
Proof.
  intros Hs. unfold evaluate, extractNodes.
  rewrite (finditer_blank expression None eq_refl eq_refl Hs).
  split; reflexivity.
Qed.

Lemma blank_expression_raises_witness :
  evaluate no_library ∅ 1 (txt "  ") []
  = (Raise (Exception (txt "Can not execute on an empty node")),
     [fresh CNode None]).
Proof.
  apply (blank_expression_raises no_library ∅ 0 (txt "  ")). reflexivity.
Defined.

(** Where a token comes from: some alternative matched it at some
    position. *)
Lemma finditer_In (s : text) :
  forall skip prev t v,
    In (t, v) (finditer skip prev s) ->
    exists prev' s' n,
      match_here prev' s' = Some (t, n) /\ v = firstn n s'
      /\ length s' <= length s.
Proof.
  induction s as [|c s IH]; intros skip prev t v Hin; [contradiction|].
  destruct skip as [|k].
  - cbn [finditer] in Hin.
    destruct (match_here prev (c :: s)) as [[t' n]|] eqn:E.
    + destruct Hin as [[= <- <-]|Hin].
      * exists prev, (c :: s), n. auto.
      * apply IH in Hin as (p & s' & m & Hm & Hv & Hl).
        exists p, s', m. cbn [length]. auto.
    + apply IH in Hin as (p & s' & m & Hm & Hv & Hl).
      exists p, s', m. cbn [length]. auto.
  - cbn [finditer] in Hin.
    apply IH in Hin as (p & s' & m & Hm & Hv & Hl).
    exists p, s', m. cbn [length]. auto.
Qed.

Lemma match_here_number (prev : option N) (s : text) (n : nat) :
  match_here prev s = Some (NUMBER, n) ->
  n = run_length is_number_char s /\ n <> 0.
Proof.
  unfold match_here.
  repeat match goal with
  | |- context [match ?m with Some _ => _ | None => _ end] =>
      destruct m eqn:?; [discriminate|]
  end.
  destruct (match_run is_number_char s) as [k|] eqn:E.
  - intros [= <-]. unfold match_run in E.
    destruct (Nat.eqb _ 0) eqn:E0; [discriminate|]. injection E as <-.
    apply Nat.eqb_neq in E0. auto.
  - destruct (match_run is_operator_char s); discriminate.
Qed.

(** X9: a Number token is a non-empty run of digits and dots, so a
    Number node made by the tokenizer evaluates to a float or raises
    [ValueError] (as for [1.2.3]); no other outcome is possible. *)
Theorem number_tokens_parse (H : Host) (s v : text) :
  In (NUMBER, v) (finditer 0 None s) ->
  v <> [] /\ forallb is_number_char v = true
  /\ ((exists f, float H (Some v) = Ok (VFloat f))
      \/ float H (Some v) = Raise ValueError).
Proof.
  intros Hin. apply finditer_In in Hin as (p & s' & n & Hm & -> & _).
  apply match_here_number in Hm as [-> Hn].
  assert (Hall : forallb is_number_char
                   (firstn (run_length is_number_char s') s') = true)
    by apply run_length_forallb.
  split; [|split; [exact Hall|]].
  - destruct s' as [|c s'']; [contradiction|]. cbn in *.
    destruct (is_number_char c); [discriminate | contradiction].
  - unfold float. rewrite Hall.
    destruct (skipn _ _) as [|c fp].
    + destruct (firstn (run_length is_digit _) _); eauto.
    + destruct (forallb is_digit fp && _); eauto.
Qed.

Lemma number_tokens_parse_witness :
  (exists f, float no_library (Some (txt "3.5")) = Ok (VFloat f))
  \/ float no_library (Some (txt "3.5")) = Raise ValueError.
Proof.
  apply (number_tokens_parse no_library (txt "2 * 3.5") (txt "3.5")).
  vm_compute. auto.
Defined.

Lemma group_length_last (s : text) :
  forall depth n m,
    1 <= depth -> group_length s depth n = Some m ->
    exists k, m = n + S k /\ s !! k = Some RPAREN.
Proof.
  induction s as [|c s IH]; intros depth n m Hd E;
    cbn [group_length] in E; [discriminate|].
  destruct (N.eqb c LPAREN).
  { destruct (Nat.ltb depth 3); [|discriminate].
    apply IH in E as (k & -> & Hk); [|lia]. exists (S k). split; [lia|exact Hk]. }
  destruct (N.eqb c RPAREN) eqn:Ec.
  { apply N.eqb_eq in Ec as ->.
    destruct depth as [|[|d]]; [lia| |].
    - injection E as <-. exists 0. split; [lia|reflexivity].
    - apply IH in E as (k & -> & Hk); [|lia].
      exists (S k). split; [lia|exact Hk]. }
  destruct depth as [|d]; [lia|].
  apply IH in E as (k & -> & Hk); [|lia]. exists (S k). split; [lia|exact Hk].
Qed.

(** What the group alternative matches begins with [(] and ends with
    [)]. *)
Lemma match_group_shape (s : text) (n : nat) :
  match_group s = Some n ->
  exists body, firstn n s = LPAREN :: body ++ [RPAREN].
Proof.
  unfold match_group. destruct s as [|c s]; [discriminate|].
  cbn [group_length]. destruct (N.eqb c LPAREN) eqn:Ec.
  - apply N.eqb_eq in Ec as ->. cbn [Nat.ltb Nat.leb].
    intros E. apply group_length_last in E as (k & -> & Hk); [|lia].
    exists (firstn k s). cbn [Nat.add firstn].
    rewrite (take_S_r s k RPAREN Hk). reflexivity.
  - destruct (N.eqb c RPAREN); discriminate.
Qed.

Lemma match_here_group (prev : option N) (s : text) (n : nat) :
  match_here prev s = Some (TOKEN_GROUP, n) -> match_group s = Some n.
Proof.
  unfold match_here.
  destruct (match_string prev s); [discriminate|].
  destruct (match_variable prev s); [discriminate|].
  destruct (match_group s) as [k|]; [intros [= <-]; reflexivity|].
  repeat match goal with
  | |- context [match ?m with Some _ => _ | None => _ end] =>
      destruct m; [discriminate|]
  end.
  discriminate.
Qed.

Lemma run_length_stop (p : N -> bool) (l : text) (x : N) :
  p x = false -> run_length p (l ++ [x]) <= length l.
Proof.
  intros Hx. induction l as [|c l IH]; cbn; [rewrite Hx; lia|].
  destruct (p c); lia.
Qed.

Lemma strip_end_last (c : N) (w : text) :
  length (strip_end c true (w ++ [c])) <= length w.
Proof.
  unfold strip_end. rewrite rev_app_distr. cbn [rev app].
  rewrite N.eqb_refl, length_rev. cbn [run_length].
  rewrite N.eqb_refl. cbn [skipn].
  rewrite length_skipn, length_rev. lia.
Qed.

Lemma sub_parens_enclosed (body : text) :
  length (sub_parens (LPAREN :: body ++ [RPAREN])) <= length body.
Proof.
  unfold sub_parens. cbn [run_length]. rewrite N.eqb_refl. cbn [skipn].
  pose proof (run_length_stop (N.eqb LPAREN) body RPAREN eq_refl) as Hj.
  rewrite skipn_app.
  replace (run_length (N.eqb LPAREN) (body ++ [RPAREN]) - length body)
    with 0 by lia.
  cbn [skipn].
  etransitivity; [apply strip_end_last|].
  rewrite length_skipn. lia.
Qed.

(** X10: a group token is a parenthesized slice of the expression, and
    the text stored for it is at least two characters shorter: what a
    group tokenizes when it is evaluated is strictly shorter than the
    expression it came from. *)
Theorem group_tokens_shrink (s v : text) :
  In (TOKEN_GROUP, v) (finditer 0 None s) ->
  (exists body, v = LPAREN :: body ++ [RPAREN])
  /\ length (sub_parens v) + 2 <= length v
  /\ length v <= length s.
Proof.
  intros Hin. apply finditer_In in Hin as (p & s' & n & Hm & -> & Hl).
  apply match_here_group, match_group_shape in Hm as [body Hb].
  split; [exists body; exact Hb|]. split.
  - rewrite Hb. pose proof (sub_parens_enclosed body).
    cbn [length]. rewrite length_app. cbn [length]. lia.
  - rewrite length_take. lia.
Qed.

Lemma group_tokens_shrink_witness :
  length (sub_parens (txt "((1+2)*(3+4))")) + 2
  <= length (txt "((1+2)*(3+4))").
Proof.
  apply (group_tokens_shrink (txt "2 + ((1+2)*(3+4))") (txt "((1+2)*(3+4))")).
  vm_compute. auto.
Defined.

(** ** What the tokenizer and the builder do to the store *)

Lemma extends_refl (h : Store) : extends h h.
Proof. split; [lia|]. intros i n Hi. exists n. auto. Qed.

Lemma extends_trans (h1 h2 h3 : Store) :
  extends h1 h2 -> extends h2 h3 -> extends h1 h3.
Proof.
  intros [L1 P1] [L2 P2]. split; [lia|]. intros i n Hi.
  destruct (P1 i n Hi) as (n' & Hi' & Hc & Hv).
  destruct (P2 i n' Hi') as (n'' & Hi'' & Hc' & Hv').
  exists n''. split; [exact Hi''|]. split; congruence.
Qed.

Section Grows.

Lemma grows_ret {A} (a : A) : grows (ret a).
Proof. intros h o h' [= <- <-]. apply extends_refl. Qed.

Lemma grows_raise {A} (e : exn) : grows (@raise A e).
Proof. intros h o h' [= <- <-]. apply extends_refl. Qed.

Lemma grows_diverge {A} : grows (@diverge A).
Proof. intros h o h' [= <- <-]. apply extends_refl. Qed.

Lemma grows_bind {A B} (m : M A) (f : A -> M B) :
  grows m -> (forall a, grows (f a)) -> grows (bind m f).
Proof.
  intros Hm Hf h o h' E. unfold bind in E.
  destruct (m h) as [[a|e|] h1] eqn:E1; pose proof (Hm _ _ _ E1) as H1.
  - eapply extends_trans; [exact H1 | eapply Hf; exact E].
  - injection E as <- <-. exact H1.
  - injection E as <- <-. exact H1.
Qed.

Lemma grows_get i : grows (get i).
Proof.
  intros h o h' E. unfold get in E.
  destruct (h !! i); injection E as <- <-; apply extends_refl.
Qed.

Lemma grows_new n : grows (new n).
Proof.
  intros h o h' [= <- <-]. split; [rewrite length_app; lia|].
  intros i m Hi. exists m. split; [apply lookup_app_l_Some; exact Hi | auto].
Qed.

Lemma grows_update i (f : Node -> Node) :
  (forall n, cls (f n) = cls n /\ value (f n) = value n) ->
  grows (update i f).
Proof.
  intros Hf h o h' E. unfold update in E.
  destruct (h !! i) as [n|] eqn:Hi; injection E as <- <-;
    [|apply extends_refl].
  split; [rewrite length_insert; lia|].
  intros j m Hj. destruct (decide (j = i)) as [->|Hne].
  - exists (f n). rewrite list_lookup_insert_eq
      by (eapply lookup_lt_Some; exact Hi).
    assert (m = n) as -> by congruence.
    split; [reflexivity | apply Hf].
  - exists m. rewrite list_lookup_insert_ne by auto. auto.
Qed.

Lemma grows_set_node_a i a : grows (set_node_a i a).
Proof. apply grows_update. intros n. split; reflexivity. Qed.

Lemma grows_set_node_b i b : grows (set_node_b i b).
Proof. apply grows_update. intros n. split; reflexivity. Qed.

Lemma grows_set_arguments i l : grows (set_arguments i l).
Proof. apply grows_update. intros n. split; reflexivity. Qed.

Lemma grows_createToken t v : grows (createToken t v).
Proof.
  destruct t; unfold createToken; try apply grows_new.
  - destruct (operatorMap v), (operatorWeightMap v);
      try apply grows_new; apply grows_raise.
  - destruct (comparatorMap v); [apply grows_new | apply grows_raise].
  - destruct (functionMap v); [apply grows_new | apply grows_raise].
Qed.

Lemma grows_new_groups vs : grows (new_groups vs).
Proof.
  induction vs as [|v vs IH]; [apply grows_ret|].
  cbn [new_groups]. apply grows_bind; [apply grows_new|]. intros i.
  apply grows_bind; [exact IH|]. intros l. apply grows_ret.
Qed.

Lemma grows_split n : grows (split n).
Proof.
  unfold split. destruct (value n);
    [apply grows_new_groups | apply grows_raise].
Qed.

Lemma grows_get_opt o : grows (get_opt o).
Proof.
  destruct o as [i|]; cbn [get_opt]; [|apply grows_ret].
  apply grows_bind; [apply grows_get|]. intros m. apply grows_ret.
Qed.

Ltac grows_step :=
  first
    [ apply grows_bind; [|intros ?]
    | apply grows_get | apply grows_get_opt | apply grows_split
    | apply grows_set_node_a | apply grows_set_node_b
    | apply grows_set_arguments | apply grows_new | apply grows_ret
    | apply grows_raise | apply grows_diverge
    | match goal with
      | |- grows (if ?c then _ else _) => destruct c
      | |- grows (match ?o with Some _ => _ | None => _ end) => destruct o
      | |- grows (match ?l with [] => _ | _ :: _ => _ end) => destruct l
      end ].

Lemma grows_attach_group base node : grows (attach_group base node).
Proof. unfold attach_group. repeat grows_step. Qed.

Lemma grows_createExpressionTree fuel :
  forall base nodes, grows (createExpressionTree fuel base nodes).
Proof.
  induction fuel as [|fuel IH]; intros base nodes; [apply grows_diverge|].
  destruct nodes as [|node nodes]; [apply grows_ret|].
  cbn [createExpressionTree].
  repeat first [apply IH | apply grows_attach_group | grows_step].
Qed.

End Grows.

(** X11: building links nodes and nothing else: whatever the outcome,
    every object that was in the store is still there with its class,
    its operator, comparator or function identity and its text; only
    child slots and argument lists are written. *)
Theorem builder_keeps_identity (fuel base : nat) (nodes : list nat)
    (h h' : Store) (o : outcome (nat * list nat)) :
  createExpressionTree fuel base nodes h = (o, h') ->
  length h <= length h'
  /\ forall i n, h !! i = Some n ->
       exists n', h' !! i = Some n' /\ cls n' = cls n /\ value n' = value n.
Proof. intros E. exact (grows_createExpressionTree fuel base nodes h o h' E). Qed.

Lemma builder_keeps_identity_witness :
  exists n',
    snd (createExpressionTree 3 0 [1; 2]
           [ fresh CNumberNode (Some (txt "1"));
             fresh (COperatorNode ADD 0%Z) (Some (txt "+"));
             fresh CNumberNode (Some (txt "2")) ]) !! 1 = Some n'
    /\ cls n' = COperatorNode ADD 0%Z /\ value n' = Some (txt "+").
Proof.
  destruct (builder_keeps_identity 3 0 [1; 2]
              [ fresh CNumberNode (Some (txt "1"));
                fresh (COperatorNode ADD 0%Z) (Some (txt "+"));
                fresh CNumberNode (Some (txt "2")) ]
              _ _ eq_refl) as [_ P].
  apply (P 1 (fresh (COperatorNode ADD 0%Z) (Some (txt "+"))) eq_refl).
Defined.

(** The tokens that the constructors make. *)
Lemma createToken_fresh t v (h h' : Store) o :
  createToken t v h = (o, h') ->
  (exists e, o = Raise e /\ h' = h)
  \/ (o = Ok (length h) /\ exists c v', h' = h ++ [fresh c v']).
Proof.
  unfold createToken, new, raise.
  destruct t;
    repeat match goal with
    | |- context [match ?m with Some _ => _ | None => _ end] => destruct m
    end;
    intros [= <- <-]; eauto 6.
Qed.

Lemma make_nodes_fresh ms :
  forall (h h' : Store) o,
    make_nodes ms h = (o, h') ->
    exists ns,
      h' = h ++ ns
      /\ Forall (fun n => exists c v, n = fresh c v) ns
      /\ forall ids, o = Ok ids -> ids = seq (length h) (length ns).
Proof.
  induction ms as [|[t v] ms IH]; intros h h' o E.
  { injection E as <- <-. exists []. rewrite app_nil_r.
    repeat split; auto. intros ids [= <-]. reflexivity. }
  cbn [make_nodes] in E.
  assert (Hstep : forall v0,
    (i <- createToken t v0 ;; nodes <- make_nodes ms ;; ret (i :: nodes)) h
    = (o, h') ->
    exists ns,
      h' = h ++ ns
      /\ Forall (fun n => exists c v, n = fresh c v) ns
      /\ forall ids, o = Ok ids -> ids = seq (length h) (length ns)).
  { intros v0 E0. unfold bind in E0.
    destruct (createToken t v0 h) as [[i|e|] h1] eqn:Et;
      apply createToken_fresh in Et as [(e' & He & ->)|(Hi & c & v' & ->)];
      try discriminate.
    - injection Hi as ->.
      destruct (make_nodes ms (h ++ [fresh c v'])) as [[l|e|] h2] eqn:Em;
        apply IH in Em as (ns & -> & Hns & Hids); injection E0 as <- <-;
        exists (fresh c v' :: ns); rewrite <- app_assoc;
        (split; [reflexivity|]); (split; [constructor; eauto|]);
        intros ids Hids'; try discriminate.
      injection Hids' as <-. rewrite (Hids l eq_refl), length_app.
      cbn [length seq]. rewrite Nat.add_1_r. reflexivity.
    - injection E0 as <- <-. exists []. rewrite app_nil_r.
      repeat split; auto. discriminate. }
  destruct t; try (apply (Hstep v); exact E).
  destruct (sub_parens v) as [|c v'] eqn:Ev;
    [apply IH; exact E | apply (Hstep (c :: v')); exact E].
Qed.

(** X12: the tokenizer only creates: the store it leaves is the one it
    found followed by one new node per token, none of them linked to
    anything, and the list it returns names these nodes in order.  When
    a token is refused, the nodes made before it stay. *)
Theorem tokens_are_fresh (expression : text) (h h' : Store)
    (o : outcome (list nat)) :
  extractNodes expression h = (o, h') ->
  exists ns,
    h' = h ++ ns
    /\ Forall (fun n => exists c v, n = fresh c v) ns
    /\ forall ids, o = Ok ids -> ids = seq (length h) (length ns).
Proof. apply make_nodes_fresh. Qed.

Lemma tokens_are_fresh_witness :
  exists ns,
    snd (extractNodes (txt "2 + #") []) = [] ++ ns
    /\ Forall (fun n => exists c v, n = fresh c v) ns
    /\ forall ids,
         fst (extractNodes (txt "2 + #") []) = Ok ids ->
         ids = seq 0 (length ns).
Proof.
  apply (tokens_are_fresh (txt "2 + #") []). reflexivity.
Defined.

(** X13: the builder returns only when it has used every token: the
    list it hands back with the root is empty, so no token is left out
    of a tree that is returned. *)
Theorem builder_consumes_tokens (fuel base : nat) (nodes : list nat)
    (h h' : Store) (root : nat) (rest : list nat) :
  createExpressionTree fuel base nodes h = (Ok (root, rest), h') ->
  rest = [].
Proof.
  intros E. exact (createExpressionTree_consumes _ _ _ _ _ _ E).
Qed.

Lemma builder_consumes_tokens_witness :
  exists h',
    createExpressionTree 3 0 [1; 2]
      [ fresh CNumberNode (Some (txt "1"));
        fresh (COperatorNode ADD 0%Z) (Some (txt "+"));
        fresh CNumberNode (Some (txt "2")) ]
    = (Ok (1, []), h')
    /\ @nil nat = [].
Proof.
  eexists. split; [reflexivity|].
  eapply (builder_consumes_tokens 3 0 [1; 2]
            [ fresh CNumberNode (Some (txt "1"));
              fresh (COperatorNode ADD 0%Z) (Some (txt "+"));
              fresh CNumberNode (Some (txt "2")) ] _ 1 []).
  reflexivity.
Defined.

(** ** The builder terminates *)

Section Runs.
Implicit Types ids : list nat.

Lemma runs_ret ids {A} (a : A) : runs ids (ret a).
Proof. intros h _ _. discriminate. Qed.

Lemma runs_raise ids {A} e : runs ids (@raise A e).
Proof. intros h _ _. discriminate. Qed.

Lemma runs_new ids n : runs ids (new n).
Proof. intros h _ _. discriminate. Qed.

Lemma runs_get ids i : i ∈ ids -> runs ids (get i).
Proof.
  intros Hi h _ Hids. unfold get. rewrite Forall_forall in Hids.
  destruct (lookup_lt_is_Some_2 h i (Hids i Hi)) as [n ->]. discriminate.
Qed.

Lemma runs_update ids i f : i ∈ ids -> runs ids (update i f).
Proof.
  intros Hi h _ Hids. unfold update. rewrite Forall_forall in Hids.
  destruct (lookup_lt_is_Some_2 h i (Hids i Hi)) as [n ->]. discriminate.
Qed.

Lemma runs_bind ids {A B} (out : A -> list nat) (m : M A) (f : A -> M B) :
  keeps ids out m ->
  runs ids m ->
  (forall a, (exists h h', m h = (Ok a, h')) -> runs (out a ++ ids) (f a)) ->
  runs ids (bind m f).
Proof.
  intros Hk Hm Hf h Hc Hids. unfold bind.
  specialize (Hm h Hc Hids).
  destruct (m h) as [[a|e|] h1] eqn:E; [|discriminate|contradiction].
  destruct (Hk h (Ok a) h1 Hc Hids E) as (Hc1 & Hl & Hout).
  apply (Hf a); [eauto | exact Hc1 |].
  apply Forall_app. split; [auto|].
  eapply Forall_impl; [exact Hids|]. cbn. lia.
Qed.

Lemma runs_createToken ids t v : runs ids (createToken t v).
Proof.
  intros h _ _. unfold createToken, new, raise.
  destruct t;
    repeat match goal with
    | |- context [match ?m with Some _ => _ | None => _ end] => destruct m
    end; discriminate.
Qed.

Lemma runs_cons ids (m : M nat) (r : M (list nat)) :
  (forall ids', keeps ids' (fun i => [i]) m) ->
  (forall ids', runs ids' m) ->
  (forall ids', keeps ids' (fun l => l) r) ->
  (forall ids', runs ids' r) ->
  runs ids (i <- m ;; l <- r ;; ret (i :: l)).
Proof.
  intros Km Rm Kr Rr.
  eapply runs_bind; [apply Km | apply Rm|]. intros i _.
  eapply runs_bind; [apply Kr | apply Rr|]. intros l _. apply runs_ret.
Qed.

Lemma runs_make_nodes ms : forall ids, runs ids (make_nodes ms).
Proof.
  induction ms as [|[t v] ms IH]; intros ids; [apply runs_ret|].
  cbn [make_nodes].
  assert (Hc : forall v0,
    runs ids (i <- createToken t v0 ;; nodes <- make_nodes ms ;;
              ret (i :: nodes))).
  { intros v0. apply runs_cons; intros;
      [apply keeps_createToken | apply runs_createToken
      | apply keeps_make_nodes | apply IH]. }
  destruct t; try apply Hc.
  destruct (sub_parens v); [apply IH | apply Hc].
Qed.

Lemma runs_new_groups vs : forall ids, runs ids (new_groups vs).
Proof.
  induction vs as [|v vs IH]; intros ids; [apply runs_ret|].
  cbn [new_groups]. apply runs_cons; intros;
    [apply keeps_new | apply runs_new | apply keeps_new_groups | apply IH].
Qed.

Lemma runs_split ids n : runs ids (split n).
Proof.
  unfold split. destruct (value n);
    [apply runs_new_groups | apply runs_raise].
Qed.

Lemma runs_get_opt ids o :
  (forall j, o = Some j -> j ∈ ids) -> runs ids (get_opt o).
Proof.
  intros Ho. destruct o as [j|]; cbn [get_opt]; [|apply runs_ret].
  eapply runs_bind; [apply keeps_get | apply runs_get; auto|].
  intros n _. apply runs_ret.
Qed.

Lemma runs_attach_group ids base node :
  base ∈ ids -> node ∈ ids -> runs ids (attach_group base node).
Proof.
  intros Hbase Hnode. unfold attach_group.
  eapply runs_bind; [apply keeps_get | apply runs_get; exact Hbase|].
  intros b _.
  eapply runs_bind; [apply keeps_get | apply runs_get; set_solver|].
  intros n _.
  eapply runs_bind; [apply keeps_get_opt | |].
  { apply runs_get_opt. intros j Hj%slot_refs_b. set_solver. }
  intros nb _.
  destruct (Some_is_type FUNCTION nb).
  { eapply runs_bind; [apply keeps_split | apply runs_split|].
    intros args _. destruct (node_b b) as [j|] eqn:Hj;
      [apply runs_update | apply runs_ret].
    apply slot_refs_b in Hj. set_solver. }
  eapply runs_bind; [apply keeps_get_opt | |].
  { apply runs_get_opt. intros j Hj%slot_refs_a. set_solver. }
  intros na _.
  destruct (Some_is_type FUNCTION na).
  { eapply runs_bind; [apply keeps_split | apply runs_split|].
    intros args _. destruct (node_a b) as [j|] eqn:Hj;
      [apply runs_update | apply runs_ret].
    apply slot_refs_a in Hj. set_solver. }
  destruct (is_type FUNCTION b).
  { eapply runs_bind; [apply keeps_split | apply runs_split|].
    intros args _. apply runs_update. set_solver. }
  destruct (is_None (node_a b)); [apply runs_update; set_solver|].
  destruct (is_None (node_b b)); [apply runs_update; set_solver|].
  apply runs_raise.
Qed.

(** One level of recursion per token is enough. *)
Lemma runs_createExpressionTree fuel :
  forall ids base nodes,
    length nodes < fuel -> base ∈ ids -> nodes ⊆ ids ->
    runs ids (createExpressionTree fuel base nodes).
Proof.
  induction fuel as [|fuel IH]; intros ids base nodes Hf Hbase Hnodes;
    [lia|].
  destruct nodes as [|node nodes]; [apply runs_ret|].
  cbn [length] in Hf. cbn [createExpressionTree].
  assert (Hnode : node ∈ ids) by set_solver.
  assert (Hrest : nodes ⊆ ids) by set_solver.
  assert (Hlast : forall ids' b (r : nat * list nat) m,
            (exists (h h' : Store), m h = (Ok r, h')) ->
            (forall (h h' : Store) r0, m h = (Ok r0, h') -> snd r0 = []) ->
            b ∈ ids' ->
            runs ids' (createExpressionTree fuel b (snd r))).
  { intros ids' b r m (h & h' & E) Hm Hb. rewrite (Hm _ _ _ E).
    destruct fuel; [lia|]. apply runs_ret. }
  eapply runs_bind; [apply keeps_get | apply runs_get; exact Hnode|].
  intros n _.
  eapply runs_bind; [apply keeps_get | apply runs_get; set_solver|].
  intros b _.
  destruct (is_type OPERATOR n).
  { destruct (is_type OPERATOR b && (node_weight b <? node_weight n)%Z).
    - eapply runs_bind.
      { apply keeps_set_node_a. intros j Hj%slot_refs_b. set_solver. }
      { apply runs_update. set_solver. }
      intros ? _.
      eapply runs_bind;
        [apply keeps_createExpressionTree; set_solver
        | apply IH; [lia | set_solver | set_solver] |].
      intros r Hr.
      eapply runs_bind.
      { apply keeps_set_node_b. intros j [= <-]. unfold tree_refs.
        set_solver. }
      { apply runs_update. set_solver. }
      intros ? _. eapply Hlast; [exact Hr | | set_solver].
      intros h1 h2 r0 E0. exact (createExpressionTree_consumes _ _ _ _ _ _ E0).
    - eapply runs_bind.
      { apply keeps_set_node_a. intros j [= <-]. set_solver. }
      { apply runs_update. set_solver. }
      intros ? _. apply IH; [lia | set_solver | set_solver]. }
  destruct (is_type COMPARATOR n).
  { eapply runs_bind.
    { apply keeps_set_node_a. intros j [= <-]. set_solver. }
    { apply runs_update. set_solver. }
    intros ? _.
    eapply runs_bind.
    - instantiate (1 := tree_refs). destruct nodes as [|next rest].
      + eapply keeps_bind; [apply keeps_new|]. intros e.
        apply keeps_createExpressionTree; set_solver.
      + apply keeps_createExpressionTree; set_solver.
    - destruct nodes as [|next rest].
      + eapply runs_bind; [apply keeps_new | apply runs_new|].
        intros e _. apply IH; [cbn; lia | set_solver | set_solver].
      + cbn [length] in Hf. apply IH; [lia | set_solver | set_solver].
    - intros r Hr.
      eapply runs_bind.
      { apply keeps_set_node_b. intros j [= <-]. unfold tree_refs.
        set_solver. }
      { apply runs_update. set_solver. }
      intros ? _. eapply Hlast; [exact Hr | | set_solver].
      intros h1 h2 r0 E0. destruct nodes as [|next rest].
      + unfold bind in E0.
        destruct (new (fresh CNode None) h1) as [[e| |] h1'];
          try discriminate.
        exact (createExpressionTree_consumes _ _ _ _ _ _ E0).
      + exact (createExpressionTree_consumes _ _ _ _ _ _ E0). }
  destruct (is_type TOKEN_GROUP n).
  { eapply runs_bind;
      [apply keeps_attach_group; set_solver
      | apply runs_attach_group; set_solver |].
    intros ? _. apply IH; [lia | set_solver | set_solver]. }
  destruct (is_None (value b)); [apply IH; [lia | set_solver | set_solver]|].
  destruct (is_None (node_a b)).
  { eapply runs_bind.
    { apply keeps_set_node_a. intros j [= <-]. set_solver. }
    { apply runs_update. set_solver. }
    intros ? _. apply IH; [lia | set_solver | set_solver]. }
  destruct (is_None (node_b b)).
  { eapply runs_bind.
    { apply keeps_set_node_b. intros j [= <-]. set_solver. }
    { apply runs_update. set_solver. }
    intros ? _. apply IH; [lia | set_solver | set_solver]. }
  apply runs_raise.
Qed.

End Runs.

(** X14: tokenizing and building terminate for every expression, from
    every closed store: the builder recurses at most one level per
    token, so [build] returns a tree or raises and never runs out of its
    recursion bound. *)
Theorem build_terminates (expression : text) (h : Store) :
  closed h = true -> fst (build expression h) <> Diverge.
Proof.
  intros Hc. revert h Hc.
  assert (Hr : runs [] (build expression)).
  { unfold build.
    eapply runs_bind; [apply keeps_make_nodes | apply runs_make_nodes|].
    intros nodes _.
    eapply runs_bind; [apply keeps_new | apply runs_new|].
    intros base _.
    apply runs_createExpressionTree; [lia | set_solver | set_solver]. }
  intros h Hc. apply Hr; [exact Hc | constructor].
Qed.

Lemma build_terminates_witness :
  fst (build (txt "2 + 3 * (4 - 1)") []) <> Diverge.
Proof. apply build_terminates. reflexivity. Defined.

(** ** Argument lists *)

Lemma split_text_no_comma (s : text) :
  forall cur, ~ In COMMA s -> split_text s cur false = [rev cur ++ s].
Proof.
  induction s as [|c s IH]; intros cur Hc; cbn [split_text].
  - rewrite app_nil_r. reflexivity.
  - cbn [andb]. destruct (N.eqb c COMMA) eqn:E.
    + apply N.eqb_eq in E. subst c. exfalso. apply Hc. left. reflexivity.
    + cbn [andb]. rewrite IH by (intros Hin; apply Hc; right; exact Hin).
      cbn [rev]. rewrite <- app_assoc. reflexivity.
Qed.

Lemma closes_first_flat (s : text) :
  ~ In LPAREN s -> ~ In RPAREN s -> closes_first s = false.
Proof.
  induction s as [|c s IH]; intros Hl Hr; [reflexivity|]. cbn [closes_first].
  destruct (N.eqb c RPAREN) eqn:E.
  { apply N.eqb_eq in E. exfalso. apply Hr. left. auto. }
  destruct (N.eqb c LPAREN) eqn:E'.
  { apply N.eqb_eq in E'. exfalso. apply Hl. left. auto. }
  apply IH; intros Hin; [apply Hl | apply Hr]; right; exact Hin.
Qed.

Lemma split_text_flat (s : text) :
  forall cur skipping,
    ~ In LPAREN s -> ~ In RPAREN s ->
    length (split_text s cur skipping) = S (count_occ N.eq_dec s COMMA).
Proof.
  induction s as [|c s IH]; intros cur skipping Hl Hr; [reflexivity|].
  assert (Hl' : ~ In LPAREN s) by (intros Hin; apply Hl; right; exact Hin).
  assert (Hr' : ~ In RPAREN s) by (intros Hin; apply Hr; right; exact Hin).
  cbn [split_text count_occ].
  destruct (N.eq_dec c COMMA) as [->|Hne].
  - replace (is_space COMMA) with false by reflexivity.
    rewrite andb_false_r, N.eqb_refl, closes_first_flat by assumption.
    cbn [andb negb length]. rewrite IH by assumption. reflexivity.
  - apply N.eqb_neq in Hne. rewrite Hne. cbn [andb].
    destruct (skipping && is_space c); apply IH; assumption.
Qed.

Lemma split_text_nonempty (s : text) :
  forall cur skipping, split_text s cur skipping <> [].
Proof.
  induction s as [|c s IH]; intros cur skipping; cbn [split_text];
    [intros [=]|].
  destruct (skipping && is_space c); [apply IH|].
  destruct (N.eqb c COMMA && _); [intros [=] | apply IH].
Qed.

(** X15: [TokenGroupNode.split] never returns an empty list; a text
    without a comma is one argument, unchanged; and in a text without
    parentheses every comma separates, so there is one argument more
    than there are commas. *)
Theorem split_arguments (s : text) :
  split_text s [] false <> []
  /\ (~ In COMMA s -> split_text s [] false = [s])
  /\ (~ In LPAREN s -> ~ In RPAREN s ->
      length (split_text s [] false) = S (count_occ N.eq_dec s COMMA)).
Proof.
  split; [|split].
  - apply split_text_nonempty.
  - intros Hc. apply (split_text_no_comma s [] Hc).
  - apply split_text_flat.
Qed.

Lemma split_arguments_witness :
  split_text (txt "2") [] false = [txt "2"]
  /\ length (split_text (txt "1, 2,3") [] false) = 3.
Proof.
  destruct (split_arguments (txt "2")) as (_ & A & _).
  destruct (split_arguments (txt "1, 2,3")) as (_ & _ & B).
  split.
  - apply A. vm_compute. intuition discriminate.
  - apply B; vm_compute; intuition discriminate.
Defined.

(** ** Syntax errors *)

(** X16: a String, Number, Variable, Constant or Function token that
    comes when the current tree has a text and both child slots filled
    has no place to go: the builder raises and writes nothing. *)
Theorem no_slot_is_a_syntax_error (fuel base node : nat)
    (nodes : list nat) (h : Store) (b n : Node) :
  h !! base = Some b ->
  h !! node = Some n ->
  is_type OPERATOR n = false ->
  is_type COMPARATOR n = false ->
  is_type TOKEN_GROUP n = false ->
  is_None (value b) = false ->
  is_None (node_a b) = false ->
  is_None (node_b b) = false ->
  createExpressionTree (S fuel) base (node :: nodes) h
  = (Raise (Exception (txt "Invalid Syntax")), h).
Proof.
  intros Hb Hn Ho Hc Hg Hv Ha Hnb. cbn [createExpressionTree].
  unfold bind, get. rewrite Hn, Hb, Ho, Hc, Hg, Hv, Ha, Hnb. reflexivity.
Qed.

(** [1 2 3 4]: the number 1 takes 2 and 3 as children, and 4 finds no
    slot. *)
Lemma no_slot_is_a_syntax_error_witness :
  createExpressionTree 1 0 [3]
    [ mkNode CNumberNode (Some (txt "1")) (Some 1) (Some 2) [];
      fresh CNumberNode (Some (txt "2"));
      fresh CNumberNode (Some (txt "3"));
      fresh CNumberNode (Some (txt "4")) ]
  = (Raise (Exception (txt "Invalid Syntax")),
     [ mkNode CNumberNode (Some (txt "1")) (Some 1) (Some 2) [];
       fresh CNumberNode (Some (txt "2"));
       fresh CNumberNode (Some (txt "3"));
       fresh CNumberNode (Some (txt "4")) ])
  /\ fst (build (txt "1 2 3 4") [])
     = Raise (Exception (txt "Invalid Syntax")).
Proof.
  split; [|vm_compute; reflexivity].
  match goal with
  | |- createExpressionTree _ _ _ ?st = _ =>
      apply (no_slot_is_a_syntax_error 0 0 3 [] st
               (mkNode CNumberNode (Some (txt "1")) (Some 1) (Some 2) [])
               (fresh CNumberNode (Some (txt "4"))))
  end; reflexivity.
Defined.

(** ** Leaves *)

(** X17: evaluating a String, Number, Constant or Variable node reads
    its text only: whatever the builder put in its child slots is never
    evaluated, so operands attached to a leaf are dropped in silence. *)
Theorem leaf_ignores_children (H : Host) (kwargs : gmap text PassedData)
    (fuel i i' : nat) (n n' : Node) (h h' : Store) :
  h !! i = Some n ->
  h' !! i' = Some n' ->
  cls n' = cls n ->
  value n' = value n ->
  In (cls n) [CStringNode; CNumberNode; CConstantNode; CVariableNode] ->
  fst (exec H kwargs (S fuel) i h) = fst (exec H kwargs (S fuel) i' h')
  /\ snd (exec H kwargs (S fuel) i h) = h.
Proof.
  intros Hi Hi' Hc Hv Hleaf. rewrite !exec_S, Hi, Hi', Hc, Hv.
  cbn [In] in Hleaf.
  destruct Hleaf as [<-|[<-|[<-|[<-|[]]]]]; cbn [fst snd];
    try (split; reflexivity).
  destruct (is_pi (value n)); split; reflexivity.
Qed.

(** [1 2 3] evaluates to 1. *)
Lemma leaf_ignores_children_witness :
  fst (exec no_library ∅ 1 0
         [ mkNode CNumberNode (Some (txt "1")) (Some 1) (Some 2) [];
           fresh CNumberNode (Some (txt "2"));
           fresh CNumberNode (Some (txt "3")) ])
  = fst (exec no_library ∅ 1 0 [fresh CNumberNode (Some (txt "1"))])
  /\ fst (evaluate no_library ∅ 1 (txt "1 2 3") []) = Ok (VFloat (flt 1)).
Proof.
  split; [|vm_compute; reflexivity].
  match goal with
  | |- fst (exec _ _ _ _ ?st) = fst (exec _ _ _ _ ?st') =>
      apply (leaf_ignores_children no_library ∅ 0 0 0
               (mkNode CNumberNode (Some (txt "1")) (Some 1) (Some 2) [])
               (fresh CNumberNode (Some (txt "1"))) st st'
               eq_refl eq_refl eq_refl eq_refl)
  end.
  cbn. auto.
Defined.
